(** * neferset: curve parametrization, layer composition and tint blend

    A shallow embedding of the card renderer's geometric and compositing core:

    - [CubicBezier] and the shrink loop of [CurvedText.draw]
      (neferset/curved.py),
    - [render_component] and the component loop of [main] (generate.py),
    - the per-pixel loop of [set_watermark] (custom.py).

    Numbers.  The curve code computes with Python numbers whose power and
    square-root steps come from the platform's math library; the curve is
    embedded over the real numbers [R], i.e. with every arithmetic step exact.
    The blend loop only divides and multiplies a byte by 255 and rounds, which
    IEEE binary64 fixes bit for bit; it is embedded over Rocq's primitive
    binary64 floats. *)

From Stdlib Require Import Reals Lra Lia List ZArith Bool String.
From Stdlib Require Import Strings.Byte.
From Stdlib Require Import Permutation Sorted.
From Stdlib Require Floats.PrimFloat Floats.FloatOps Floats.SpecFloat.
From Stdlib Require Uint63.
Import ListNotations.

(** ** Python exceptions and the state-and-exception monad *)

Inductive exn : Set :=
| ValueError
| ZeroDivisionError
| IndexError
| NameError
| AttributeError
| AssertionError
| FileNotFoundError
| OverflowError
| TypeError
| KeyError.

Inductive result (A : Type) : Type :=
| Ok (a : A)
| Raise (e : exn).
Arguments Ok {A} a.
Arguments Raise {A} e.

(** A method call on a mutable object: it leaves a state behind whether it
    returns or raises. *)
Definition M (S A : Type) : Type := S -> result A * S.

Definition ret {S A} (a : A) : M S A := fun s => (Ok a, s).
Definition raise {S A} (e : exn) : M S A := fun s => (Raise e, s).
Definition bind {S A B} (m : M S A) (k : A -> M S B) : M S B :=
  fun s => match m s with
           | (Ok a, s') => k a s'
           | (Raise e, s') => (Raise e, s')
           end.

Declare Scope py_scope.
Delimit Scope py_scope with py.
Notation "x <- m ;; k" := (bind m (fun x => k))
  (at level 61, m at next level, right associativity) : py_scope.
Notation "m ;;; k" := (bind m (fun _ => k))
  (at level 61, right associativity) : py_scope.

(** ** geometry.Point *)

Module Point.
Local Open Scope R_scope.

(** Modelled from the spec: the geometry module is not part of the sources;
    a Point is an "(x, y) scalar pair" that "supports add, subtract, scale,
    Euclidean distance" and is an "immutable value type". *)
Record t : Type := mk { x : R; y : R }.

(** Modelled from the spec: [p + q], componentwise. *)
Definition add (p q : t) : t := mk (x p + x q) (y p + y q).

(** Modelled from the spec: [p - q], componentwise. *)
Definition sub (p q : t) : t := mk (x p - x q) (y p - y q).

(** Modelled from the spec: [p * k] and [k * p], scaling by a scalar. *)
Definition scale (k : R) (p : t) : t := mk (k * x p) (k * y p).

(** Modelled from the spec: [p.distance(q)], the Euclidean distance. *)
Definition distance (p q : t) : R :=
  sqrt ((x p - x q) * (x p - x q) + (y p - y q) * (y p - y q)).
End Point.

(** ** curved.CubicBezier *)

Module CubicBezier.
Local Open Scope R_scope.

Record t : Type := mk {
  p0 : Point.t; p1 : Point.t; p2 : Point.t; p3 : Point.t;
  a : R; b : R; c : R; d : R;
  e : R; f : R; g : R; h : R;
  _arc_lengths : list R;
  _length : R
}.

(** [_from_points]: stores the control points and the coefficients derived
    from them; the two cache fields are not touched. *)
Definition _from_points (self : t) (q0 q1 q2 q3 : Point.t) : t :=
  let ae := Point.sub (Point.add (Point.sub q3 (Point.scale 3 q2))
                                 (Point.scale 3 q1)) q0 in
  let bf := Point.add (Point.sub (Point.scale 3 q2) (Point.scale 6 q1))
                      (Point.scale 3 q0) in
  let cg := Point.sub (Point.scale 3 q1) (Point.scale 3 q0) in
  let dh := q0 in
  mk q0 q1 q2 q3
     (Point.x ae) (Point.x bf) (Point.x cg) (Point.x dh)
     (Point.y ae) (Point.y bf) (Point.y cg) (Point.y dh)
     (_arc_lengths self) (_length self).

(** [__init__] with four points: [_from_points], then an empty table and a
    zero length. *)
Definition init (q0 q1 q2 q3 : Point.t) : t :=
  let blank := mk q0 q1 q2 q3 0 0 0 0 0 0 0 0 [] 0 in
  let self := _from_points blank q0 q1 q2 q3 in
  mk (p0 self) (p1 self) (p2 self) (p3 self)
     (a self) (b self) (c self) (d self)
     (e self) (f self) (g self) (h self)
     [] 0.

(** [__init__] with eight coordinates goes through [_from_coords]. *)
Definition init_coords (x0 y0 x1 y1 x2 y2 x3 y3 : R) : t :=
  init (Point.mk x0 y0) (Point.mk x1 y1) (Point.mk x2 y2) (Point.mk x3 y3).

Definition set_arc_lengths (self : t) (tbl : list R) : t :=
  mk (p0 self) (p1 self) (p2 self) (p3 self)
     (a self) (b self) (c self) (d self)
     (e self) (f self) (g self) (h self)
     tbl (_length self).

Definition set_length (self : t) (len : R) : t :=
  mk (p0 self) (p1 self) (p2 self) (p3 self)
     (a self) (b self) (c self) (d self)
     (e self) (f self) (g self) (h self)
     (_arc_lengths self) len.

Definition evaluate (self : t) (u : R) : Point.t :=
  Point.mk (a self * u ^ 3 + b self * u ^ 2 + c self * u + d self)
           (e self * u ^ 3 + f self * u ^ 2 + g self * u + h self).

Definition tangent (self : t) (u : R) : Point.t :=
  Point.mk (3 * a self * u ^ 2 + 2 * b self * u + c self)
           (3 * e self * u ^ 2 + 2 * f self * u + g self).

(** The body of the [for i in range(1, max + 1)] loop of [estimate_length],
    over the remaining values of [i]; [tbl] is [self._arc_lengths]. *)
Fixpoint estimate_loop (self : t) (max : nat) (range : list nat)
         (prev : Point.t) (sum : R) (tbl : list R) : R * list R :=
  match range with
  | [] => (sum, tbl)
  | i :: range' =>
      let p := evaluate self (INR i / INR max) in
      let sum' := sum + Point.distance prev p in
      estimate_loop self max range' p sum' (tbl ++ [sum'])
  end.

(** [estimate_length(segments)]: fills [_arc_lengths] and returns the sum;
    [_length] is assigned by the caller. *)
Definition estimate_length (self : t) (segments : nat) : R * t :=
  let max := (segments + 1)%nat in
  let prev := evaluate self 0 in
  let '(sum, tbl) := estimate_loop self max (seq 1 max) prev 0 [0] in
  (sum, set_arc_lengths self tbl).

(** The [arc_lengths] property. *)
Definition arc_lengths : M t (list R) := fun self =>
  if (List.length (_arc_lengths self) <=? 0)%nat then
    let '(s, self') := estimate_length self 100 in
    let self'' := set_length self' s in
    (Ok (_arc_lengths self''), self'')
  else (Ok (_arc_lengths self), self).

(** The [length] property. *)
Definition length : M t R := fun self =>
  if Rle_dec (_length self) 0 then
    let '(s, self') := estimate_length self 100 in
    let self'' := set_length self' s in
    (Ok (_length self''), self'')
  else (Ok (_length self), self).

(** [xs[i]] on a list, for an index that is not negative. *)
Definition getitem {S} (xs : list R) (i : nat) : M S R :=
  match nth_error xs i with
  | Some v => ret v
  | None => raise IndexError
  end.

(** True division. *)
Definition truediv {S} (n m : R) : M S R :=
  if Req_dec_T m 0 then raise ZeroDivisionError else ret (n / m).

(** The [for i, v in enumerate(...)] loop of [parametrize]: [bound] is
    [table_len - 1], [i] the index of the head of [vs]. *)
Fixpoint scan (target_len : R) (bound : nat) (vs : list R) (i : nat)
         (index : nat) (best : R) : nat * R :=
  match vs with
  | [] => (index, best)
  | v :: vs' =>
      if (bound <=? i)%nat then (index, best)
      else if Rlt_dec v target_len then
             if Rgt_dec v best
             then scan target_len bound vs' (S i) i v
             else scan target_len bound vs' (S i) index best
           else scan target_len bound vs' (S i) index best
  end.

Local Open Scope py_scope.

Definition parametrize (u : R) : M t R :=
  tbl <- arc_lengths ;;
  let table_len := List.length tbl in
  tbl <- arc_lengths ;;
  last <- getitem tbl (table_len - 1) ;;
  let target_len := u * last in
  tbl <- arc_lengths ;;
  let '(index, best) := scan target_len (table_len - 1) tbl 0 0%nat 0 in
  tbl <- arc_lengths ;;
  v <- getitem tbl index ;;
  if Req_dec_T v target_len then
    truediv (INR index) (INR (table_len - 1))
  else
    tbl <- arc_lengths ;;
    lb <- getitem tbl index ;;
    tbl <- arc_lengths ;;
    la <- getitem tbl (index + 1) ;;
    let seg_len := la - lb in
    seg_frac <- truediv (target_len - lb) seg_len ;;
    truediv (INR index + seg_frac) (INR (table_len - 1)).

(** [offset(x, y)]. *)
Definition offset (self : t) (dx dy : R) : t :=
  let p := Point.mk dx dy in
  _from_points self (Point.add (p0 self) p) (Point.add (p1 self) p)
               (Point.add (p2 self) p) (Point.add (p3 self) p).

End CubicBezier.

(** ** curved.CurvedText: the size loop of [draw] *)

Module CurvedText.
Local Open Scope R_scope.
Local Open Scope py_scope.

(** Modelled from the spec: what the glyph shaping collaborator
    ([drawing.text_path], not part of the sources) returns: "a GlyphPath plus
    measured width/height/x-height extents".  The path itself plays no part
    in the loop and is kept abstract. *)
Record shaped (Path : Type) : Type := mk_shaped {
  path : Path;
  extents_width : R;
  xheight : R
}.
Arguments mk_shaped {Path}.
Arguments path {Path}.
Arguments extents_width {Path}.
Arguments xheight {Path}.

Section Draw.
Context {Path : Type}.
(** [text_path(context, self.font, size, self.text)] as a function of the
    size; font and text do not change during [draw]. *)
Variable text_path : Z -> shaped Path.

(** The [while True] loop of [draw]: [fuel] bounds the number of passes,
    [None] means the bound was reached with the loop still running. *)
Fixpoint shrink (fuel : nat) (size : Z)
  : M CubicBezier.t (option (Z * shaped Path)) :=
  match fuel with
  | O => ret None
  | S fuel' =>
      let s := text_path size in
      len <- CubicBezier.length ;;
      if Rgt_dec (extents_width s) len
      then shrink fuel' (size - 1)%Z
      else ret (Some (size, s))
  end.

End Draw.

(** [_fit(width, x, y, range)]: the point of the unwrapped text at distance
    [x] along the baseline and [y] off it, laid onto the curve. *)
Definition _fit (width x y : R) (range : R * R) : M CubicBezier.t (R * R) :=
  r <- CubicBezier.truediv x width ;;
  let '(nmin, nmax) := range in
  let nrng := nmax - nmin in
  let nt := r * nrng + nmin in
  t <- CubicBezier.parametrize nt ;;
  fun curve =>
    let s := CubicBezier.evaluate curve t in
    let tg := CubicBezier.tangent curve t in
    let px := - Point.y tg in
    let py := Point.x tg in
    let mag := sqrt (px ^ 2 + py ^ 2) in
    (px <- CubicBezier.truediv px mag ;;
     py <- CubicBezier.truediv py mag ;;
     let px := px * y in
     let py := py * y in
     let fx := px + Point.x s in
     let fy := py + Point.y s in
     ret (fx, fy)) curve.

(** One element of a cairo path: its type and its points. *)
Inductive path_cmd : Set :=
| PATH_MOVE_TO (x y : R)
| PATH_LINE_TO (x y : R)
| PATH_CURVE_TO (x1 y1 x2 y2 x3 y3 : R)
| PATH_CLOSE_PATH.

Definition rgb : Set := (R * R * R)%type.

(** The calls made on the context, in order ([ctx_arc] is [context.arc]). *)
Inductive call : Set :=
| save | restore | new_path
| move_to (x y : R)
| line_to (x y : R)
| curve_to (x1 y1 x2 y2 x3 y3 : R)
| close_path
| set_source_rgb (colour : rgb)
| set_line_cap_round | set_line_join_round
| set_line_width (w : R)
| stroke_preserve | fill
| ctx_arc (xc yc radius angle1 angle2 : R).

(** What [draw] works on: the curve of the text and the context. *)
Record drawing : Set := mk_drawing {
  curve : CubicBezier.t;
  calls : list call
}.

Definition on_curve {A} (m : M CubicBezier.t A) : M drawing A := fun st =>
  let '(res, crv) := m (curve st) in (res, mk_drawing crv (calls st)).

Definition context (c : call) : M drawing unit := fun st =>
  (Ok tt, mk_drawing (curve st) (calls st ++ [c])).

(** The [for ptype, pts in path] loop of [draw]. *)
Fixpoint fit_path (width : R) (rng : R * R) (glyphs : list path_cmd)
  : M drawing unit :=
  match glyphs with
  | [] => ret tt
  | cmd :: rest =>
      match cmd with
      | PATH_MOVE_TO x y =>
          p <- on_curve (_fit width x y rng) ;;
          context (move_to (fst p) (snd p))
      | PATH_LINE_TO x y =>
          p <- on_curve (_fit width x y rng) ;;
          context (line_to (fst p) (snd p))
      | PATH_CURVE_TO x1 y1 x2 y2 x3 y3 =>
          p <- on_curve (_fit width x1 y1 rng) ;;
          q <- on_curve (_fit width x2 y2 rng) ;;
          w <- on_curve (_fit width x3 y3 rng) ;;
          context (curve_to (fst p) (snd p) (fst q) (snd q) (fst w) (snd w))
      | PATH_CLOSE_PATH => context close_path
      end ;;;
      fit_path width rng rest
  end.

(** [draw(context)]: [text_path] is the shaper as a function of the size
    (it leaves the context as it finds it), [fuel] bounds the passes of the
    size loop, and [None] is returned when that bound was reached. *)
Definition draw (text_path : Z -> shaped (list path_cmd)) (self_size : Z)
           (outline : option rgb) (colour : rgb) (fuel : nat)
  : M drawing (option unit) :=
  context save ;;;
  fitted <- on_curve (shrink text_path fuel self_size) ;;
  match fitted with
  | None => ret None
  | Some (size, s) =>
      on_curve (fun crv =>
                  (Ok tt, CubicBezier.offset crv 0 (xheight s / 2))) ;;;
      let width := extents_width s in
      len <- on_curve CubicBezier.length ;;
      rng <- (if Rlt_dec width len then
                r <- CubicBezier.truediv width len ;;
                let half := r / 2 in
                let minr := 0.5 - half in
                let maxr := 0.5 + half in
                ret (minr, maxr)
              else ret (0, 1)) ;;
      context new_path ;;;
      fit_path width rng (path s) ;;;
      match outline with
      | Some o =>
          context (set_source_rgb o) ;;;
          context set_line_cap_round ;;;
          context set_line_join_round ;;;
          context (set_line_width 6) ;;;
          context stroke_preserve
      | None => ret tt
      end ;;;
      context (set_source_rgb colour) ;;;
      context fill ;;;
      context restore ;;;
      ret (Some tt)
  end.
End CurvedText.

(** ** The debug marks *)

Module curved.
Import CurvedText.
Local Open Scope R_scope.
Local Open Scope py_scope.

(** [range(1, num)]. *)
Definition range1 (num : Z) : list Z :=
  map Z.of_nat (seq 1 (Z.to_nat (num - 1))).

(** [curve.evaluate(t)] on the curve of the drawing. *)
Definition evaluate (t : R) : M drawing Point.t := fun st =>
  (Ok (CubicBezier.evaluate (curve st) t), st).

(** The [for i in range(1, num)] loop of [draw_uniform_t]. *)
Fixpoint uniform_t_small (num : Z) (indices : list Z) : M drawing unit :=
  match indices with
  | [] => ret tt
  | i :: rest =>
      t <- CubicBezier.truediv (IZR i) (IZR num) ;;
      s <- evaluate t ;;
      context (ctx_arc (Point.x s) (Point.y s) 2 0 (2 * PI)) ;;;
      context fill ;;;
      uniform_t_small num rest
  end.

(** The [for t in (0, 0.5, 1)] loop of [draw_uniform_t]. *)
Fixpoint uniform_t_large (ts : list R) : M drawing unit :=
  match ts with
  | [] => ret tt
  | t :: rest =>
      s <- evaluate t ;;
      context (ctx_arc (Point.x s) (Point.y s) 4 0 (2 * PI)) ;;;
      context fill ;;;
      uniform_t_large rest
  end.

(** [draw_uniform_t(ctx, num, curve)]: dots at uniform parameters. *)
Definition draw_uniform_t (num : Z) : M drawing unit :=
  context save ;;;
  context (set_source_rgb (0.2, 0.8, 0.4)) ;;;
  uniform_t_small num (range1 num) ;;;
  uniform_t_large [0; 0.5; 1] ;;;
  context restore.



End curved.

(** ** custom: byte conversions and the blend loop of [set_watermark] *)

Module custom.
Local Open Scope Z_scope.

Definition float := PrimFloat.float.

(** An [int] as a Python float (exact for the small integers met here). *)
Definition float_of_Z (z : Z) : float :=
  match z with
  | Z0 => PrimFloat.zero
  | Zpos _ => PrimFloat.of_uint63 (Uint63.of_Z z)
  | Zneg q => PrimFloat.opp (PrimFloat.of_uint63 (Uint63.of_Z (Zpos q)))
  end.

Definition byte_to_Z (v : byte) : Z := Z.of_N (Byte.to_N v).

(** [round(x)] of a float: the nearest integer, ties to the even one; it
    raises on a NaN or an infinity. *)
Definition py_round {St} (v : float) : M St Z :=
  match FloatOps.Prim2SF v with
  | SpecFloat.S754_zero _ => ret 0
  | SpecFloat.S754_infinity _ => raise OverflowError
  | SpecFloat.S754_nan => raise ValueError
  | SpecFloat.S754_finite sign m ex =>
      let mag :=
        if 0 <=? ex then Z.shiftl (Zpos m) ex
        else
          let q := Z.shiftr (Zpos m) (- ex) in
          let rest := Zpos m - Z.shiftl q (- ex) in
          let half := Z.shiftl 1 (- ex - 1) in
          if half <? rest then q + 1
          else if rest <? half then q
          else if Z.even q then q else q + 1 in
      ret (if sign then - mag else mag)
  end.

(** Modelled from the spec: [geometry.Vector4] is not part of the sources;
    the blend works "componentwise on fractional 0..1 RGBA". *)
Record Vector4 : Type := mkV { r : float; g : float; b : float; a : float }.

(** Modelled from the spec: componentwise product of two vectors. *)
Definition vmul (v w : Vector4) : Vector4 :=
  mkV (PrimFloat.mul (r v) (r w)) (PrimFloat.mul (g v) (g w))
      (PrimFloat.mul (b v) (b w)) (PrimFloat.mul (a v) (a w)).

(** Modelled from the spec: product of a vector and a scalar. *)
Definition vscale (v : Vector4) (k : float) : Vector4 :=
  mkV (PrimFloat.mul (r v) k) (PrimFloat.mul (g v) k)
      (PrimFloat.mul (b v) k) (PrimFloat.mul (a v) k).

(** Modelled from the spec: componentwise difference and sum. *)
Definition vsub (v w : Vector4) : Vector4 :=
  mkV (PrimFloat.sub (r v) (r w)) (PrimFloat.sub (g v) (g w))
      (PrimFloat.sub (b v) (b w)) (PrimFloat.sub (a v) (a w)).
Definition vadd (v w : Vector4) : Vector4 :=
  mkV (PrimFloat.add (r v) (r w)) (PrimFloat.add (g v) (g w))
      (PrimFloat.add (b v) (b w)) (PrimFloat.add (a v) (a w)).

Definition set_a (v : Vector4) (k : float) : Vector4 :=
  mkV (r v) (g v) (b v) k.

(** An RGBA pixel as [getdata()] yields it: four byte values. *)
Definition pixel : Type := byte * byte * byte * byte.
(** A pixel as [rgb_to_bytes] builds it: a tuple of four [int]s. *)
Definition ipixel : Type := Z * Z * Z * Z.

Definition pixel_ints (px : pixel) : ipixel :=
  let '(cr, cg, cb, ca) := px in
  (byte_to_Z cr, byte_to_Z cg, byte_to_Z cb, byte_to_Z ca).

Local Open Scope py_scope.

Definition rgb_to_bytes {St} (color : Vector4) : M St ipixel :=
  let to_byte (i : float) := py_round (PrimFloat.mul i (float_of_Z 255)) in
  cr <- to_byte (r color) ;;
  cg <- to_byte (g color) ;;
  cb <- to_byte (b color) ;;
  ca <- to_byte (a color) ;;
  ret (cr, cg, cb, ca).

Definition rgb_from_bytes (color : pixel) : Vector4 :=
  let from_byte (i : byte) :=
    PrimFloat.div (float_of_Z (byte_to_Z i)) (float_of_Z 255) in
  let '(cr, cg, cb, ca) := color in
  mkV (from_byte cr) (from_byte cg) (from_byte cb) (from_byte ca).

(** One pass of the [for i in range(len(r0_data))] loop: the pixel appended
    to [out_data]. *)
Definition blend_pixel {St} (tint : Vector4) (intensity : float)
           (px0 px1 : pixel) : M St ipixel :=
  let r0 := rgb_from_bytes px0 in
  let r1 := rgb_from_bytes px1 in
  if PrimFloat.eqb (a r0) (float_of_Z 0) then rgb_to_bytes r1
  else
    let r0 := vscale (vmul r0 tint) intensity in
    let r2 := vsub (vmul r1 r0) r1 in
    let r0 := vadd (vscale r2 (a r0)) r1 in
    let r0 := set_a r0 (float_of_Z 1) in
    rgb_to_bytes r0.

(** The loop itself, over the remaining pixels of [r0_data] from index [i];
    [r1_data[i]] raises when [r1_data] is too short. *)
Fixpoint blend_loop {St} (tint : Vector4) (intensity : float)
         (r0_rest : list pixel) (r1_data : list pixel) (i : nat)
         (out_data : list ipixel) : M St (list ipixel) :=
  match r0_rest with
  | [] => ret out_data
  | px0 :: r0_rest' =>
      match nth_error r1_data i with
      | None => raise IndexError
      | Some px1 =>
          px <- blend_pixel tint intensity px0 px1 ;;
          blend_loop tint intensity r0_rest' r1_data (S i) (out_data ++ [px])
      end
  end.

Definition blend {St} (tint : Vector4) (intensity : float)
           (r0_data r1_data : list pixel) : M St (list ipixel) :=
  blend_loop tint intensity r0_data r1_data 0%nat [].
End custom.

(** ** component: the theme's layer records *)

Module component.
Local Open Scope Z_scope.
Local Open Scope string_scope.

Inductive ComponentType : Set :=
| powers | elite | health | cost | attack | name | multiClass | race
| rarity | cardSet | classDecoration | base | portrait.

(** [description = powers]: an alias of the first member. *)
Definition description : ComponentType := powers.

Definition ComponentType_eqb (s u : ComponentType) : bool :=
  match s, u with
  | powers, powers | elite, elite | health, health | cost, cost
  | attack, attack | name, name | multiClass, multiClass | race, race
  | rarity, rarity | cardSet, cardSet | classDecoration, classDecoration
  | base, base | portrait, portrait => true
  | _, _ => false
  end.

Inductive ShapeType : Set := rectangle | ellipse | curve.

Definition ShapeType_eqb (s u : ShapeType) : bool :=
  match s, u with
  | rectangle, rectangle | ellipse, ellipse | curve, curve => true
  | _, _ => false
  end.

(** [ShapeType.<attr>]: the members the enumeration declares. *)
Definition ShapeType_member (attr : string) : option ShapeType :=
  if String.eqb attr "rectangle" then Some rectangle
  else if String.eqb attr "ellipse" then Some ellipse
  else if String.eqb attr "curve" then Some curve
  else None.

Record Region : Set := mkRegion { x : Z; y : Z; width : Z; height : Z }.

(** [Image(Region)]: a region and the [assets] mapping. *)
Record Image : Set := mkImage {
  image_region : Region;
  assets : list (string * string)
}.

Record Text : Set := mkText { text_region : Region }.

Record Clip : Set := mkClip { clip_region : Region; type_ : ShapeType }.

Record Point : Set := mkPoint { point_x : Z; point_y : Z }.

Record Curve : Set := mkCurve {
  start : Point; end_ : Point; c1 : Point; c2 : Point
}.

(** Modelled from the spec: [render_component] reads [component.font], which
    the [Component] class of the sources does not assign; the spec's "font
    descriptor (family/size/outline-color/fill-color/variant flag)", of
    which the pipeline reads the variant flag [type]. *)
Record Font : Set := mkFont {
  family : string;
  size : Z;
  font_type : string
}.

(** The [custom] record of a layer: the handler's [name] and the fields
    [set_watermark] reads from it. *)
Record Custom : Type := mkCustom {
  custom_name : string;
  raceOffset : Z;
  custom_image : Image;
  custom_region : Region;
  setIcons : string;
  blendIntensity : custom.float;
  tint : list (string * custom.Vector4)
}.

Record Component : Type := mkComponent {
  layer : Z;
  text : option Text;
  image : option Image;
  clip : option Clip;
  curve_ : option Curve;
  custom_ : option Custom;
  font : option Font;
  type : ComponentType
}.

(** What [main] reads of the card. *)
Record Card : Set := mkCard {
  card_id : string;
  card_name : string;
  card_elite : bool;
  rarity_craftable : bool;
  rarity_name : string;
  card_set_is_core : bool;
  card_set_craftable : bool;
  card_set_name : string;
  multi_class_group : option string;
  card_class_name : string;
  card_cost : string;
  card_health : string;
  card_durability : string;
  card_is_weapon : bool;
  card_atk : string;
  race_visible : bool;
  race_valid : bool;
  race_localized : string;
  card_description : string;
  card_type_name : string
}.

(** The [data] dictionary [main] hands to the cardSet handler. *)
Record Payload : Set := mkPayload {
  payload_card : Card;
  payload_dir : string;
  payload_premium : bool;
  payload_cardtype : string
}.

Record ComponentData : Set := mkComponentData {
  key : option string;
  data_text : option string;
  override : option string;
  data : option Payload
}.
End component.

(** ** The drawing context *)

Module cairo.
Import component.
Local Open Scope string_scope.

(** A piece of the current path. *)
Inductive path_op : Set :=
| EllipsePath (reg : Region)
| RectanglePath (reg : Region).

(** One clip region: the path it was made from.  An empty path clips
    everything away. *)
Definition clip_region : Set := list path_op.

(** What reached the surface. *)
Inductive paint : Type :=
| PngAsset (img : Image) (dir : string) (asset : string)
| TextLine (reg : Text) (s : string) (fnt : Font)
| TextBlock (reg : Text) (s : string) (fnt : Font)
| CurvedTextPaint (crv : Curve) (s : string) (fnt : Font)
| ImageFile (file : string) (at_x at_y : Z).

(** The context and what surrounds it: the current path, the active clip
    (the regions installed since the last reset; [[]] is "no clip"), every
    paint with the clip it was made under, the lines printed, the files of
    the blend cache written so far, and whether the final PNG was written. *)
Record Context : Type := mkContext {
  path : list path_op;
  clip_state : list clip_region;
  painted : list (paint * list clip_region);
  stdout : list string;
  saved : list (string * list custom.ipixel);
  output_written : bool
}.

Definition blank : Context := mkContext [] [] [] [] [] false.

Definition add_path (op : path_op) : M Context unit := fun ctx =>
  (Ok tt, mkContext (path ctx ++ [op]) (clip_state ctx) (painted ctx)
                    (stdout ctx) (saved ctx) (output_written ctx)).

(** [context.clip()]: the current path becomes one more clip region and the
    path is consumed. *)
Definition clip : M Context unit := fun ctx =>
  (Ok tt, mkContext [] (clip_state ctx ++ [path ctx]) (painted ctx)
                    (stdout ctx) (saved ctx) (output_written ctx)).

(** [context.reset_clip()]. *)
Definition reset_clip : M Context unit := fun ctx =>
  (Ok tt, mkContext (path ctx) [] (painted ctx)
                    (stdout ctx) (saved ctx) (output_written ctx)).

(** Modelled from the spec: the drawing helpers ([draw_png_asset], [text],
    [text_block], [draw_image]) are not part of the sources; each one paints
    onto the shared canvas under the clip active at that moment and leaves
    path and clip as they were. *)
Definition draw (what : paint) : M Context unit := fun ctx =>
  (Ok tt, mkContext (path ctx) (clip_state ctx)
                    (painted ctx ++ [(what, clip_state ctx)])
                    (stdout ctx) (saved ctx) (output_written ctx)).

Definition print (line : string) : M Context unit := fun ctx =>
  (Ok tt, mkContext (path ctx) (clip_state ctx) (painted ctx)
                    (stdout ctx ++ [line]) (saved ctx) (output_written ctx)).

Definition save_file (file : string) (px : list custom.ipixel)
  : M Context unit := fun ctx =>
  (Ok tt, mkContext (path ctx) (clip_state ctx) (painted ctx)
                    (stdout ctx) (saved ctx ++ [(file, px)])
                    (output_written ctx)).

Definition write_to_png : M Context unit := fun ctx =>
  (Ok tt, mkContext (path ctx) (clip_state ctx) (painted ctx)
                    (stdout ctx) (saved ctx) true).

Definition get {A} (proj : Context -> A) : M Context A :=
  fun ctx => (Ok (proj ctx), ctx).
End cairo.

(** ** custom.set_watermark *)

Module watermark.
Import component.
Local Open Scope string_scope.
Local Open Scope py_scope.

(** An image as PIL hands it over. *)
Record PILImage : Type := mkPIL {
  pil_width : Z;
  pil_height : Z;
  getdata : list custom.pixel
}.

(** The files and the imaging library around the handler: which files exist
    before the run, what [Image.open] reads from a path, and the pixel data
    of [set_img] once the icon was resized to the set region and pasted at
    the offset onto a transparent image of the base image's size. *)
Record Env : Type := mkEnv {
  isfile0 : string -> bool;
  open_image : string -> option PILImage;
  pasted_data : PILImage -> Region -> Z * Z -> Z * Z -> list custom.pixel
}.

Definition join (dir file : string) : string :=
  if String.eqb dir "" then file
  else if String.eqb (substring (String.length dir - 1) 1 dir) "/"
       then dir ++ file
       else dir ++ "/" ++ file.

Fixpoint lookup {A} (k : string) (d : list (string * A)) : option A :=
  match d with
  | [] => None
  | (k', v) :: d' => if String.eqb k k' then Some v else lookup k d'
  end.

(** [d[k]]. *)
Definition subscript {St A} (d : list (string * A)) (k : string) : M St A :=
  match lookup k d with
  | Some v => ret v
  | None => raise KeyError
  end.

Definition isfile (env : Env) (file : string) : M cairo.Context bool :=
  written <- cairo.get cairo.saved ;;
  ret (match lookup file written with
       | Some _ => true
       | None => isfile0 env file
       end).

(** [Image.open(path)]. *)
Definition Image_open (env : Env) (file : string)
  : M cairo.Context PILImage :=
  match open_image env file with
  | Some img => ret img
  | None => raise FileNotFoundError
  end.

Definition cache_dir : string := ".cache".
Definition file_ext : string := ".png".

(** The name and path of the generated image in the cache. *)
Definition image_name (data : Payload) : string :=
  payload_cardtype data
    ++ (if payload_premium data then "_premium" else "")
    ++ (if race_valid (payload_card data) then "_race" else "")
    ++ "_" ++ card_set_name (payload_card data).
Definition image_path (data : Payload) : string :=
  join cache_dir (image_name data ++ file_ext).

Definition set_icon_path (comp : Custom) (data : Payload) : string :=
  join (join (payload_dir data) (setIcons comp))
       (card_set_name (payload_card data) ++ file_ext).

(** [set_img.getdata()]: the icon resized to the set region and pasted at
    the offset of the region within the base image (lowered by
    [raceOffset] when the card has a race). *)
Definition r0_data (env : Env) (comp : Custom) (data : Payload)
           (set_org : PILImage) : list custom.pixel :=
  let base_image := custom_image comp in
  let set_region := custom_region comp in
  let offset_x := (x set_region - x (image_region base_image))%Z in
  let offset_y := (y set_region - y (image_region base_image))%Z in
  let offset_y :=
    if race_valid (payload_card data)
    then (offset_y + raceOffset comp)%Z else offset_y in
  pasted_data env set_org set_region
              (width (image_region base_image),
               height (image_region base_image))
              (offset_x, offset_y).

(** [set_watermark(ctx, comp, data)], with [comp.custom] for [comp].  The
    creation of the cache directory leaves no trace here. *)
Definition set_watermark (env : Env) (comp : Custom)
           (data : option Payload) : M cairo.Context unit :=
  match data with
  | None => raise TypeError
  | Some data =>
      let card := payload_card data in
      let theme_dir := payload_dir data in
      let card_type := payload_cardtype data in
      if negb (card_set_craftable card) then ret tt
      else
        let set_name := card_set_name card in
        let base_image := custom_image comp in
        cached <- isfile env (image_path data) ;;
        if (cached : bool) then
          cairo.draw (cairo.ImageFile (image_path data)
                        (x (image_region base_image))
                        (y (image_region base_image)))
        else
          found <- isfile env (set_icon_path comp data) ;;
          (if (found : bool) then ret tt
           else cairo.print ("ERROR: set icon missing for " ++ set_name)) ;;;
          set_org <- Image_open env (set_icon_path comp data) ;;
          let r0_data := r0_data env comp data set_org in
          default <- subscript (assets base_image) "default" ;;
          descp_img <- Image_open env (join theme_dir default) ;;
          let intensity := blendIntensity comp in
          tint <- subscript (tint comp) card_type ;;
          let r1_data := getdata descp_img in
          if negb (Z.of_nat (List.length r0_data)
                   =? pil_width descp_img * pil_height descp_img)%Z
          then raise AssertionError
          else
            out_data <- custom.blend tint intensity r0_data r1_data ;;
            cairo.save_file (image_path data) out_data ;;;
            cairo.draw (cairo.ImageFile (image_path data)
                          (x (image_region base_image))
                          (y (image_region base_image)))
  end.
End watermark.

(** ** generate: the composition pipeline *)

Module generate.
Import component.
Local Open Scope string_scope.
Local Open Scope py_scope.

Definition theme : string := "../hearthforge/styles/default/".
Definition artwork : string := "./output/artwork/".

(** Modelled from the spec: the path builders of the drawing module, which
    is not part of the sources ("rectangle -> axis-aligned rect path; ellipse
    -> ellipse path").  The names bound in this module are the two it
    imports, [rect_ellipse] and [rectangle]. *)
Definition module_global (fname : string)
  : option (Region -> cairo.path_op) :=
  if String.eqb fname "rect_ellipse" then Some cairo.EllipsePath
  else if String.eqb fname "rectangle" then Some cairo.RectanglePath
  else None.

(** A call [fname(ctx, x, y, width, height)]: the name is looked up when
    the call is reached. *)
Definition call_global (fname : string) (reg : Region)
  : M cairo.Context unit :=
  match module_global fname with
  | Some build => cairo.add_path (build reg)
  | None => raise NameError
  end.

(** The expression [ShapeType.<attr>]. *)
Definition ShapeType_attr (attr : string) : M cairo.Context ShapeType :=
  match ShapeType_member attr with
  | Some member => ret member
  | None => raise AttributeError
  end.

Definition draw_clip_region (obj : Clip) : M cairo.Context unit :=
  m <- ShapeType_attr "ellipse" ;;
  if ShapeType_eqb (type_ obj) m then
    call_global "rect_ellipse" (clip_region obj)
  else
    m <- ShapeType_attr "rectangle" ;;
    if ShapeType_eqb (type_ obj) m then
      call_global "draw_rectangle" (clip_region obj)
    else
      m <- ShapeType_attr "path" ;;
      if ShapeType_eqb (type_ obj) m then ret tt
      else
        m <- ShapeType_attr "curve" ;;
        if ShapeType_eqb (type_ obj) m then
          cairo.print "ERROR: unable to use a curve as a clipping region"
        else ret tt.

(** Truth value of an optional string: [None] and the empty string are
    false. *)
Definition truthy (o : option string) : bool :=
  match o with
  | Some s => negb (String.eqb s "")
  | None => false
  end.

Definition or_empty (o : option string) : string :=
  match o with Some s => s | None => "" end.

(** [data.key in component.image.assets]. *)
Definition key_in (k : option string) (d : list (string * string)) : bool :=
  match k with
  | Some k => match watermark.lookup k d with Some _ => true | None => false end
  | None => false
  end.

Definition type_name (ct : ComponentType) : string :=
  match ct with
  | powers => "powers" | elite => "elite" | health => "health"
  | cost => "cost" | attack => "attack" | name => "name"
  | multiClass => "multiClass" | race => "race" | rarity => "rarity"
  | cardSet => "cardSet" | classDecoration => "classDecoration"
  | base => "base" | portrait => "portrait"
  end.

(** The functions [custom.py] defines, as [getattr] finds them by name and
    as they answer a call with [(context, component, data.data)]: the two
    byte conversions take one argument. *)
Definition custom_attr (env : watermark.Env) (fname : string)
  : option (Custom -> option Payload -> M cairo.Context unit) :=
  if String.eqb fname "set_watermark" then Some (watermark.set_watermark env)
  else if String.eqb fname "rgb_to_bytes" then Some (fun _ _ => raise TypeError)
  else if String.eqb fname "rgb_from_bytes" then Some (fun _ _ => raise TypeError)
  else None.

(** The clip step of [render_component]. *)
Definition clip_step (component : Component) : M cairo.Context unit :=
  match clip component with
  | Some region => draw_clip_region region ;;; cairo.clip
  | None => ret tt
  end.

(** The image step, with its two [reset_clip] calls. *)
Definition image_step (component : Component) (data : ComponentData)
  : M cairo.Context unit :=
  match image component with
  | Some img =>
      if truthy (override data) then
        cairo.draw (cairo.PngAsset img artwork (or_empty (override data))) ;;;
        cairo.reset_clip
      else if key_in (key data) (assets img) then
        cairo.draw (cairo.PngAsset img theme (or_empty (key data))) ;;;
        cairo.reset_clip
      else ret tt
  | None => ret tt
  end.

Definition text_step (component : Component) (data : ComponentData)
  : M cairo.Context unit :=
  match text component, font component with
  | Some reg, Some fnt =>
      if truthy (data_text data) then
        if String.eqb (font_type fnt) "textBlock"
        then cairo.draw (cairo.TextBlock reg (or_empty (data_text data)) fnt)
        else cairo.draw (cairo.TextLine reg (or_empty (data_text data)) fnt)
      else ret tt
  | _, _ => ret tt
  end.

(** The curved-text step: [curved_text] is [CurvedText.draw], embedded
    above; for the canvas it is one more paint under the active clip. *)
Definition curve_step (component : Component) (data : ComponentData)
  : M cairo.Context unit :=
  match curve_ component, font component with
  | Some crv, Some fnt =>
      if truthy (data_text data) then
        cairo.draw (cairo.CurvedTextPaint crv (or_empty (data_text data)) fnt)
      else ret tt
  | _, _ => ret tt
  end.

Definition custom_step (env : watermark.Env) (component : Component)
           (data : ComponentData) : M cairo.Context unit :=
  match custom_ component with
  | Some cus =>
      match custom_attr env (custom_name cus) with
      | Some func => func cus (component.data data)
      | None => ret tt
      end
  | None => ret tt
  end.

Definition render_component (env : watermark.Env) (component : Component)
           (data : ComponentData) : M cairo.Context unit :=
  cairo.print ("ComponentType." ++ type_name (type component)) ;;;
  clip_step component ;;;
  image_step component data ;;;
  text_step component data ;;;
  curve_step component data ;;;
  custom_step env component data.

(** The [if]/[elif] chain of [main] that picks a component's data. *)
Definition component_data (card : Card) (ct : ComponentType)
  : option ComponentData :=
  let plain k := mkComponentData (Some k) None None None in
  let with_text k s := mkComponentData (Some k) (Some s) None None in
  if ComponentType_eqb ct name then
    Some (with_text "default" (card_name card))
  else if ComponentType_eqb ct elite && card_elite card then
    Some (plain "default")
  else if ComponentType_eqb ct rarity && rarity_craftable card
          && negb (card_set_is_core card) then
    Some (plain (rarity_name card))
  else if ComponentType_eqb ct multiClass
          && match multi_class_group card with Some _ => true | None => false end then
    Some (plain (or_empty (multi_class_group card)))
  else if ComponentType_eqb ct classDecoration then
    Some (plain (card_class_name card))
  else if ComponentType_eqb ct cost then
    Some (with_text "default" (card_cost card))
  else if ComponentType_eqb ct health then
    Some (with_text "default"
            (if card_is_weapon card then card_durability card
             else card_health card))
  else if ComponentType_eqb ct attack then
    Some (with_text "default" (card_atk card))
  else if ComponentType_eqb ct race && race_visible card then
    Some (with_text "default" (race_localized card))
  else if ComponentType_eqb ct portrait then
    Some (mkComponentData None None (Some (card_id card ++ ".png")) None)
  else if ComponentType_eqb ct base then
    Some (plain "default")
  else if ComponentType_eqb ct description then
    Some (with_text "default" (card_description card))
  else if ComponentType_eqb ct cardSet then
    Some (mkComponentData None None None
            (Some (mkPayload card theme false (card_type_name card))))
  else None.

(** The [for c in components] loop of [main]. *)
Fixpoint render_all (env : watermark.Env) (card : Card)
         (components : list Component) : M cairo.Context unit :=
  match components with
  | [] => ret tt
  | comp :: rest =>
      match component_data card (type comp) with
      | Some cdata => render_component env comp cdata
      | None => ret tt
      end ;;;
      render_all env card rest
  end.

(** [components.sort(key=attrgetter("layer"))]: a stable sort. *)
Fixpoint insert_by_layer (comp : Component) (sorted : list Component)
  : list Component :=
  match sorted with
  | [] => [comp]
  | other :: sorted' =>
      if (layer comp <=? layer other)%Z then comp :: sorted
      else other :: insert_by_layer comp sorted'
  end.

Definition sort_by_layer (components : list Component) : list Component :=
  fold_right insert_by_layer [] components.

(** [main] from the component list on: sort, render every component on a
    fresh context, then write the PNG. *)
Definition main (env : watermark.Env) (card : Card)
           (components : list Component) : result unit * cairo.Context :=
  (render_all env card (sort_by_layer components) ;;;
   cairo.write_to_png) cairo.blank.
End generate.

(** * Derived notions used by the statements *)

Module CurveFacts.
Import CubicBezier.
Local Open Scope R_scope.

(** The arc-length table as the spec describes it: entry [k] is the sum of
    the Euclidean distances between consecutive samples of [evaluate] at the
    uniform parameters [0/max, 1/max, ..., k/max]. *)
Fixpoint chord_sum (self : t) (max k : nat) : R :=
  match k with
  | O => 0
  | S k' => chord_sum self max k'
            + Point.distance (evaluate self (INR k' / INR max))
                             (evaluate self (INR k / INR max))
  end.

(** The table and the total at the resolution the properties ask for. *)
Definition table (self : t) : list R :=
  map (chord_sum self 101) (seq 0 102).
Definition arc (self : t) : R := chord_sum self 101 101.

(** The coefficients are the ones [_from_points] derives from the control
    points. *)
Definition coeffs_ok (self : t) : Prop :=
  let derived :=
    _from_points self (p0 self) (p1 self) (p2 self) (p3 self) in
  a self = a derived /\ b self = b derived /\ c self = c derived /\
  d self = d derived /\ e self = e derived /\ f self = f derived /\
  g self = g derived /\ h self = h derived.

(** The cache is either untouched since [__init__] or holds the table and
    length of the curve. *)
Definition fresh (self : t) : Prop :=
  _arc_lengths self = [] /\ _length self = 0.
Definition built (self : t) : Prop :=
  _arc_lengths self = table self /\ _length self = arc self.
Definition cached (self : t) : Prop := fresh self \/ built self.

(** The states the class's own methods lead to. *)
Definition wf (self : t) : Prop := coeffs_ok self /\ cached self.

(** The curve once its cache is filled. *)
Definition fill (self : t) : t :=
  set_length (set_arc_lengths self (table self)) (arc self).

Definition sorted (tbl : list R) : Prop :=
  forall i j, (i <= j < List.length tbl)%nat -> nth i tbl 0 <= nth j tbl 0.

(** What [parametrize] computes from a table, with list accesses by
    default value. *)
Definition locate (tbl : list R) (u : R) : result R :=
  let bound := (List.length tbl - 1)%nat in
  let target_len := u * nth bound tbl 0 in
  let index := fst (scan target_len bound tbl 0 0%nat 0) in
  let lb := nth index tbl 0 in
  let la := nth (index + 1) tbl 0 in
  if Req_dec_T lb target_len then Ok (INR index / INR bound)
  else if Req_dec_T (la - lb) 0 then Raise ZeroDivisionError
       else Ok ((INR index + (target_len - lb) / (la - lb)) / INR bound).

(** The invariant of the [scan] loop after the entries below [i]. *)
Definition scan_inv (tbl : list R) (target_len : R)
           (i index : nat) (best : R) : Prop :=
  0 <= best /\
  ((index = 0%nat /\ best = 0) \/
   ((index < i)%nat /\ nth index tbl 0 = best /\ best < target_len /\ 0 < best)) /\
  (forall j, (j < i)%nat -> nth j tbl 0 < target_len -> nth j tbl 0 <= best) /\
  (forall j, (j < index)%nat -> nth j tbl 0 < target_len -> nth j tbl 0 < best).

(** A curve on the x axis whose samples at 99/101 and 100/101 coincide:
    x(u) = 3 (101 u - 99) (101 u - 100) + 2^30. *)
Definition plateau_curve : t :=
  init_coords 1073771524 0 1073751425 0 1073741527 0 1073741830 0.

(** A curve whose four control points coincide. *)
Definition point_curve : t := init_coords 1 2 1 2 1 2 1 2.

(** A straight segment from (0,0) to (3,0) with evenly spaced control
    points. *)
Definition segment_curve : t := init_coords 0 0 1 0 2 0 3 0.

(** Two shapers for the size loop: one whose text is one unit wide at
    every size, one whose text is as wide as the size. *)
Definition constant_shaper (size : Z) : CurvedText.shaped unit :=
  CurvedText.mk_shaped tt 1 0.
Definition linear_shaper (size : Z) : CurvedText.shaped unit :=
  CurvedText.mk_shaped tt (IZR size) 0.

(** A context call that adds to the current path, and the path element it
    answers to. *)
Definition is_path_call (c : CurvedText.call) : Prop :=
  match c with
  | CurvedText.move_to _ _ | CurvedText.line_to _ _
  | CurvedText.curve_to _ _ _ _ _ _ | CurvedText.close_path => True
  | _ => False
  end.

Definition same_kind (cmd : CurvedText.path_cmd) (c : CurvedText.call) : Prop :=
  match cmd, c with
  | CurvedText.PATH_MOVE_TO _ _, CurvedText.move_to _ _
  | CurvedText.PATH_LINE_TO _ _, CurvedText.line_to _ _
  | CurvedText.PATH_CURVE_TO _ _ _ _ _ _, CurvedText.curve_to _ _ _ _ _ _
  | CurvedText.PATH_CLOSE_PATH, CurvedText.close_path => True
  | _, _ => False
  end.

(** A glyph outline of two elements, and a shaper that returns it at every
    size with a width of 3. *)
Definition two_glyphs : list CurvedText.path_cmd :=
  [CurvedText.PATH_MOVE_TO 1 2; CurvedText.PATH_CLOSE_PATH].
Definition glyph_shaper (size : Z)
  : CurvedText.shaped (list CurvedText.path_cmd) :=
  CurvedText.mk_shaped two_glyphs 3 0.

(** A straight curve traversed at constant speed: the control points are
    P0, P0 + v, P0 + 2v and P0 + 3v. *)
Definition straight_curve (q v : Point.t) : t :=
  init q (Point.add q v) (Point.add q (Point.scale 2 v))
       (Point.add q (Point.scale 3 v)).

(** The calls that put one dot of the given radius at each parameter of a
    list, and the curves that are a straight one with or without its
    table. *)
Definition dots (radius : R) (self : t) (ts : list R)
  : list CurvedText.call :=
  flat_map (fun u =>
              [CurvedText.ctx_arc (Point.x (evaluate self u))
                                  (Point.y (evaluate self u))
                                  radius 0 (2 * PI);
               CurvedText.fill]) ts.
Definition is_straight (q v : Point.t) (self : t) : Prop :=
  self = straight_curve q v \/ self = fill (straight_curve q v).

End CurveFacts.

(** * Inputs used by the examples *)

Module Examples.
Import component.
Local Open Scope string_scope.
Local Open Scope Z_scope.

Definition card : Card :=
  mkCard "LOE_076" "Sir Finley Mrrgglton" true true "legendary" false true
         "loe" None "neutral" "1" "3" "0" false "1" true true "Murloc"
         "Battlecry: Discover a new basic Hero Power." "minion".

(** No file on disk, nothing to open. *)
Definition no_files : watermark.Env :=
  watermark.mkEnv (fun _ => false) (fun _ => None) (fun _ _ _ _ => []).




(** A base layer whose clip region has the shape "curve". *)
Definition curve_clipped : Component :=
  mkComponent 1 None
    (Some (mkImage (mkRegion 0 0 300 400) [("default", "frame.png")]))
    (Some (mkClip (mkRegion 0 0 300 400) curve))
    None None None base.

(** A portrait layer above it. *)
Definition portrait_layer : Component :=
  mkComponent 2 None
    (Some (mkImage (mkRegion 50 50 200 200) []))
    None None None None portrait.

Definition white : custom.Vector4 :=
  custom.mkV (custom.float_of_Z 1) (custom.float_of_Z 1)
             (custom.float_of_Z 1) (custom.float_of_Z 1).

(** The set watermark layer: the theme declares a 2x1 description image. *)
Definition watermark_custom : Custom :=
  mkCustom "set_watermark" 0
    (mkImage (mkRegion 0 0 2 1) [("default", "description.png")])
    (mkRegion 0 0 1 1) "set-icons" (custom.float_of_Z 1)
    [("minion", white)].


Definition clear : custom.pixel := (x00, x00, x00, x00).
Definition grey : custom.pixel := (x80, x80, x80, xff).

Definition icon_file : string :=
  "../hearthforge/styles/default/set-icons/loe.png".
Definition description_file : string :=
  "../hearthforge/styles/default/description.png".


(** A mask that is transparent everywhere, and a base image. *)
Definition clear_mask : list custom.pixel :=
  [(x10, x20, x30, x00); (xff, xff, xff, x00); clear].
Definition some_base : list custom.pixel :=
  [(x01, xfe, x80, x7f); (x00, xff, x33, xff); (xc8, x64, x32, x00)].

(** The icon exists and the description image on disk is 2x1, as the theme
    declares it: mask and base hold 2 pixels each. *)
Definition matching_files : watermark.Env :=
  watermark.mkEnv
    (fun file => String.eqb file icon_file || String.eqb file description_file)
    (fun file =>
       if String.eqb file icon_file
       then Some (watermark.mkPIL 1 1 [grey])
       else if String.eqb file description_file
            then Some (watermark.mkPIL 2 1 [grey; grey])
            else None)
    (fun _ _ size _ => repeat clear (Z.to_nat (fst size * snd size))).

(** The data the pipeline hands to the watermark handler for [card]. *)
Definition minion_payload : Payload :=
  mkPayload card "../hearthforge/styles/default/" false "minion".

(** A mask with one opaque and one half-transparent pixel. *)
Definition solid_mask : list custom.pixel :=
  [(x40, x80, xc0, xff); (xff, x00, x10, x80)].
End Examples.

(** * Orders and shapes used by the statements about the pipeline *)

Module PipelineFacts.
Import component.

(** Ascending layer order. *)
Definition layer_le (c d : Component) : Prop := (layer c <= layer d)%Z.

(** What [draw_clip_region] answers for each shape of clip region. *)
Definition clip_outcome (shape : ShapeType) : result unit :=
  match shape with
  | ellipse => Ok tt
  | rectangle => Raise NameError
  | curve => Raise AttributeError
  end.


(** Whether a file exists when the handler asks: it was on disk before
    the run or the run has saved it. *)
Definition on_disk (env : watermark.Env) (file : string)
           (ctx : cairo.Context) : bool :=
  match watermark.lookup file (cairo.saved ctx) with
  | Some _ => true
  | None => watermark.isfile0 env file
  end.
End PipelineFacts.

(** * The curve *)

Section Curve.
Import CubicBezier CurveFacts.
Local Open Scope R_scope.

Lemma INR_101 : INR 101 = 101.
Proof. rewrite INR_IZR_INZ. reflexivity. Qed.

Lemma distance_nonneg (p q : Point.t) : 0 <= Point.distance p q.
Proof. unfold Point.distance. apply sqrt_pos. Qed.


Lemma distance_same (p : Point.t) : Point.distance p p = 0.
Proof.
  unfold Point.distance.
  replace ((Point.x p - Point.x p) * (Point.x p - Point.x p)
           + (Point.y p - Point.y p) * (Point.y p - Point.y p)) with 0 by ring.
  apply sqrt_0.
Qed.

Lemma chord_sum_step (self : t) (max k : nat) :
  chord_sum self max (S k)
  = chord_sum self max k
    + Point.distance (evaluate self (INR k / INR max))
                     (evaluate self (INR (S k) / INR max)).
Proof. reflexivity. Qed.

Lemma chord_sum_mono (self : t) (max i j : nat) :
  (i <= j)%nat -> chord_sum self max i <= chord_sum self max j.
Proof.
  induction 1 as [|j Hij IH].
  - lra.
  - rewrite chord_sum_step.
    pose proof (distance_nonneg (evaluate self (INR j / INR max))
                                (evaluate self (INR (S j) / INR max))).
    lra.
Qed.

Lemma chord_sum_nonneg (self : t) (max k : nat) : 0 <= chord_sum self max k.
Proof. apply (chord_sum_mono self max 0 k). lia. Qed.

Lemma estimate_loop_chords (self : t) (max n : nat) : forall k,
  estimate_loop self max (seq (S k) n)
                (evaluate self (INR k / INR max)) (chord_sum self max k)
                (map (chord_sum self max) (seq 0 (S k)))
  = (chord_sum self max (k + n),
     map (chord_sum self max) (seq 0 (S (k + n)))).
Proof.
  induction n as [|n IH]; intros k.
  - rewrite Nat.add_0_r. reflexivity.
  - change (seq (S k) (S n)) with (S k :: seq (S (S k)) n).
    cbn [estimate_loop]. cbv zeta.
    rewrite <- chord_sum_step.
    replace (map (chord_sum self max) (seq 0 (S k)) ++ [chord_sum self max (S k)])
      with (map (chord_sum self max) (seq 0 (S (S k)))).
    + rewrite IH. replace (S k + n)%nat with (k + S n)%nat by lia. reflexivity.
    + rewrite (seq_S (S k) 0), map_app. reflexivity.
Qed.

Lemma estimate_length_eq (self : t) :
  estimate_length self 100 = (arc self, set_arc_lengths self (table self)).
Proof.
  pose proof (estimate_loop_chords self 101 101 0) as H.
  change (chord_sum self 101 0) with 0 in H.
  change (map (chord_sum self 101) (seq 0 1)) with [0] in H.
  replace (INR 0 / INR 101) with 0 in H
    by (simpl INR at 1; unfold Rdiv; now rewrite Rmult_0_l).
  unfold estimate_length.
  change (100 + 1)%nat with 101%nat.
  rewrite H. reflexivity.
Qed.
Lemma table_length (self : t) : List.length (table self) = 102%nat.
Proof. unfold table. now rewrite length_map, length_seq. Qed.

Lemma table_nth (self : t) (j : nat) :
  (j < 102)%nat -> nth j (table self) 0 = chord_sum self 101 j.
Proof.
  intros Hj. unfold table.
  rewrite (nth_indep _ 0 (chord_sum self 101 0))
    by now rewrite length_map, length_seq.
  rewrite map_nth, seq_nth by assumption. reflexivity.
Qed.

Lemma table_nth_error (self : t) (j : nat) :
  (j < 102)%nat -> nth_error (table self) j = Some (chord_sum self 101 j).
Proof.
  intros Hj. rewrite <- (table_nth self j Hj).
  apply nth_error_nth'. now rewrite table_length.
Qed.

Lemma table_sorted (self : t) : sorted (table self).
Proof.
  intros i j Hij. rewrite table_length in Hij.
  rewrite !table_nth by lia. apply chord_sum_mono. lia.
Qed.

Lemma table_last (self : t) : last (table self) 0 = arc self.
Proof.
  unfold table. rewrite (seq_S 101 0), map_app. simpl map at 2.
  apply last_last.
Qed.

(** The table depends on the coefficients only. *)
Lemma chord_sum_ext (self other : t) (max : nat) :
  (forall u, evaluate other u = evaluate self u) ->
  forall k, chord_sum other max k = chord_sum self max k.
Proof.
  intros Hev. induction k as [|k IH]; [reflexivity|].
  rewrite !chord_sum_step, IH, !Hev. reflexivity.
Qed.

Lemma table_ext (self other : t) :
  (forall u, evaluate other u = evaluate self u) ->
  table other = table self /\ arc other = arc self.
Proof.
  intros Hev. split.
  - unfold table. apply map_ext. intros k. now apply chord_sum_ext.
  - unfold arc. now apply chord_sum_ext.
Qed.

Lemma fill_table (self : t) :
  table (fill self) = table self /\ arc (fill self) = arc self.
Proof. apply table_ext. reflexivity. Qed.

Lemma fill_built (self : t) : built (fill self).
Proof.
  destruct (fill_table self) as [Ht Ha].
  split; [rewrite Ht | rewrite Ha]; reflexivity.
Qed.

Lemma built_fill (self : t) : built self -> fill self = self.
Proof.
  intros [Ht Hl]. unfold fill, set_length, set_arc_lengths.
  destruct self; simpl in *. now rewrite <- Ht, <- Hl.
Qed.

Lemma fill_idem (self : t) : fill (fill self) = fill self.
Proof. apply built_fill, fill_built. Qed.

Lemma fill_coeffs_ok (self : t) : coeffs_ok self -> coeffs_ok (fill self).
Proof. intros H. exact H. Qed.

Lemma arc_lengths_cached (self : t) :
  cached self -> arc_lengths self = (Ok (table self), fill self).
Proof.
  intros [[Ht Hl] | Hb]; unfold arc_lengths.
  - rewrite Ht. change (List.length [] <=? 0)%nat with true. cbv iota.
    rewrite estimate_length_eq. reflexivity.
  - rewrite (built_fill self Hb). destruct Hb as [Ht Hl].
    rewrite Ht, table_length. change (102 <=? 0)%nat with false. cbv iota.
    reflexivity.
Qed.

Lemma length_cached (self : t) :
  cached self -> length self = (Ok (arc self), fill self).
Proof.
  intros Hc. unfold length.
  destruct (Rle_dec (_length self) 0) as [Hle | Hgt].
  - rewrite estimate_length_eq. reflexivity.
  - destruct Hc as [[_ Hl] | Hb]; [lra|].
    rewrite (built_fill self Hb). destruct Hb as [_ Hl]. now rewrite Hl.
Qed.

(** A second read of [length] finds what the first one left. *)
Lemma length_again (self : t) :
  length (snd (length self)) = (fst (length self), snd (length self)).
Proof.
  unfold length at 2 3 4.
  destruct (Rle_dec (_length self) 0) as [Hle | Hgt].
  - rewrite estimate_length_eq. cbn [fst snd].
    change (set_length (set_arc_lengths self (table self)) (arc self))
      with (fill self).
    rewrite (length_cached (fill self)) by (right; apply fill_built).
    destruct (fill_table self) as [_ Ha]. rewrite Ha, fill_idem. reflexivity.
  - cbn [fst snd]. unfold length.
    destruct (Rle_dec (_length self) 0); [contradiction | reflexivity].
Qed.

(** *** The scan loop of [parametrize] *)

Lemma skipn_cons_nth (tbl vs : list R) (v : R) (i : nat) :
  skipn i tbl = v :: vs ->
  (i < List.length tbl)%nat /\ nth i tbl 0 = v /\ skipn (S i) tbl = vs.
Proof.
  revert tbl; induction i as [|i IH]; intros [|w tbl] H; simpl in H;
    try discriminate.
  - injection H as -> ->. simpl. repeat split. lia.
  - destruct (IH tbl H) as (Hl & Hn & Hs). simpl. repeat split; auto. lia.
Qed.

Lemma scan_inv_step (tbl : list R) (target_len : R) (i index : nat)
      (best : R) :
  scan_inv tbl target_len i index best ->
  let v := nth i tbl 0 in
  (v < target_len -> v > best -> scan_inv tbl target_len (S i) i v) /\
  (~ (v < target_len /\ v > best) ->
   scan_inv tbl target_len (S i) index best).
Proof.
  intros (Hb & Hidx & Hmax & Hfirst) v. split.
  - intros Hlt Hgt. repeat split.
    + lra.
    + right. repeat split; try lia; try lra.
    + intros j Hj Hjt. destruct (Nat.eq_dec j i) as [-> | Hne].
      * fold v. lra.
      * assert (nth j tbl 0 <= best) by (apply Hmax; [lia | assumption]).
        lra.
    + intros j Hj Hjt.
      assert (nth j tbl 0 <= best) by (apply Hmax; assumption). lra.
  - intros Hno. repeat split.
    + assumption.
    + destruct Hidx as [H0 | (Hi & Hn & Hlt & Hpos)]; [left; assumption|].
      right. repeat split; try assumption. lia.
    + intros j Hj Hjt. destruct (Nat.eq_dec j i) as [-> | Hne].
      * fold v in Hjt |- *.
        destruct (Rle_dec v best); [assumption|]. exfalso. apply Hno. lra.
      * apply Hmax; [lia | assumption].
    + assumption.
Qed.

Lemma scan_invariant (tbl : list R) (target_len : R) (bound : nat) :
  (bound <= List.length tbl)%nat ->
  forall vs i index best,
    (i <= bound)%nat ->
    skipn i tbl = vs ->
    scan_inv tbl target_len i index best ->
    scan_inv tbl target_len bound
             (fst (scan target_len bound vs i index best))
             (snd (scan target_len bound vs i index best)).
Proof.
  intros Hbound vs.
  induction vs as [|v vs IH]; intros i index best Hi Hskip Hinv.
  - assert (List.length tbl <= i)%nat.
    { destruct (Nat.le_gt_cases (List.length tbl) i) as [|Hlt]; auto.
      apply (f_equal (@List.length R)) in Hskip.
      rewrite length_skipn in Hskip. simpl in Hskip. lia. }
    replace bound with i by lia. exact Hinv.
  - destruct (skipn_cons_nth _ _ _ _ Hskip) as (Hlen & Hv & Hrest).
    cbn [scan].
    destruct (Nat.leb_spec bound i) as [Hge | Hlt].
    + replace bound with i by lia. exact Hinv.
    + destruct (scan_inv_step _ _ _ _ _ Hinv) as [Hyes Hno].
      rewrite Hv in Hyes, Hno.
      destruct (Rlt_dec v target_len) as [H1 | H1].
      * destruct (Rgt_dec v best) as [H2 | H2].
        -- apply IH; [lia | assumption | now apply Hyes].
        -- apply IH; [lia | assumption | apply Hno; tauto].
      * apply IH; [lia | assumption | apply Hno; tauto].
Qed.

Lemma scan_inv_init (tbl : list R) (target_len : R) :
  scan_inv tbl target_len 0 0 0.
Proof.
  repeat split; try lra; try (intros; lia). left. split; reflexivity.
Qed.

(** The index the scan of a curve's table ends on. *)
Lemma scan_table (self : t) (target_len : R) :
  let index := fst (scan target_len 101 (table self) 0 0%nat 0) in
  let best := snd (scan target_len 101 (table self) 0 0%nat 0) in
  scan_inv (table self) target_len 101 index best /\ (index <= 100)%nat.
Proof.
  intros index best.
  assert (Hinv : scan_inv (table self) target_len 101 index best).
  { apply scan_invariant; try apply scan_inv_init; try reflexivity.
    - rewrite table_length. lia.
    - lia. }
  split; [exact Hinv|].
  destruct Hinv as (_ & [[H0 _] | (Hi & _)] & _); lia.
Qed.

(** [parametrize] on a curve of the class: the table it reads, the value
    it computes, the state it leaves. *)
Lemma parametrize_locate (self : t) (u : R) :
  cached self ->
  parametrize u self = (locate (table self) u, fill self).
Proof.
  intros Hc.
  assert (Hfill : arc_lengths (fill self) = (Ok (table self), fill self)).
  { rewrite arc_lengths_cached by (right; apply fill_built).
    destruct (fill_table self) as [Ht _]. now rewrite Ht, fill_idem. }
  unfold parametrize, locate.
  unfold bind at 1. rewrite (arc_lengths_cached self Hc).
  rewrite table_length. change (102 - 1)%nat with 101%nat.
  unfold bind at 1. rewrite Hfill.
  unfold bind at 1, getitem at 1.
  rewrite (table_nth_error self 101) by lia.
  rewrite (table_nth self 101) by lia.
  unfold ret at 1.
  unfold bind at 1. rewrite Hfill.
  destruct (scan_table self (u * chord_sum self 101 101)) as [_ Hidx].
  destruct (scan (u * chord_sum self 101 101) 101 (table self) 0 0 0)
    as [index best] eqn:Hscan.
  cbn [fst] in Hidx |- *.
  unfold bind at 1. rewrite Hfill.
  unfold bind at 1, getitem at 1.
  rewrite (table_nth_error self index) by lia.
  rewrite (table_nth self index) by lia.
  rewrite (table_nth self (index + 1)) by lia.
  unfold ret at 1.
  destruct (Req_dec_T (chord_sum self 101 index)
                      (u * chord_sum self 101 101)) as [Heq | Hne].
  - unfold truediv.
    destruct (Req_dec_T (INR 101) 0) as [H0 | _];
      [rewrite INR_101 in H0; lra | reflexivity].
  - unfold bind at 1. rewrite Hfill.
    unfold bind at 1, getitem at 1.
    rewrite (table_nth_error self index) by lia. unfold ret at 1.
    unfold bind at 1. rewrite Hfill.
    unfold bind at 1, getitem at 1.
    rewrite (table_nth_error self (index + 1)) by lia. unfold ret at 1.
    unfold bind at 1, truediv at 1.
    destruct (Req_dec_T (chord_sum self 101 (index + 1)
                         - chord_sum self 101 index) 0) as [Hz | Hnz].
    + reflexivity.
    + unfold ret at 1. unfold truediv.
      destruct (Req_dec_T (INR 101) 0) as [H0 | _];
        [rewrite INR_101 in H0; lra | reflexivity].
Qed.

(** *** What [locate] returns *)

Lemma locate_zero_target (self : t) (u : R) :
  u * arc self = 0 -> locate (table self) u = Ok 0.
Proof.
  intros Hu. unfold locate.
  rewrite table_length. change (102 - 1)%nat with 101%nat.
  rewrite (table_nth self 101) by lia. fold (arc self). rewrite Hu.
  destruct (scan_table self 0) as [(Hb & Hidx & _) _].
  destruct Hidx as [[H0 _] | (_ & _ & Hlt & Hpos)]; [|lra].
  rewrite H0. rewrite (table_nth self 0) by lia.
  change (chord_sum self 101 0) with 0.
  destruct (Req_dec_T 0 0) as [_ | Hne]; [|now elim Hne].
  f_equal. change (INR 0) with 0. unfold Rdiv. apply Rmult_0_l.
Qed.

Lemma INR_100 : INR 100 = 100.
Proof. rewrite INR_IZR_INZ. reflexivity. Qed.

Lemma locate_one_rising (self : t) :
  chord_sum self 101 99 < chord_sum self 101 100 ->
  chord_sum self 101 100 < chord_sum self 101 101 ->
  locate (table self) 1 = Ok 1.
Proof.
  intros H99 H100. unfold locate.
  rewrite table_length. change (102 - 1)%nat with 101%nat.
  rewrite (table_nth self 101) by lia.
  destruct (scan_table self (1 * chord_sum self 101 101))
    as [(Hb & Hidx & Hmax & Hfirst) Hle].
  set (index := fst (scan (1 * chord_sum self 101 101) 101 (table self) 0 0 0)) in *.
  set (best := snd (scan (1 * chord_sum self 101 101) 101 (table self) 0 0 0)) in *.
  pose proof (chord_sum_nonneg self 101 99) as H0.
  assert (Hbest : chord_sum self 101 100 <= best).
  { rewrite <- (table_nth self 100) by lia. apply Hmax; [lia|].
    rewrite (table_nth self 100) by lia. lra. }
  assert (Hindex : index = 100%nat).
  { destruct Hidx as [[_ Hz] | (Hi & Hn & Hlt & Hpos)]; [lra|].
    destruct (Nat.eq_dec index 100) as [|Hne]; [assumption|].
    rewrite (table_nth self index) in Hn by lia.
    pose proof (chord_sum_mono self 101 index 99 ltac:(lia)). lra. }
  rewrite Hindex. change (100 + 1)%nat with 101%nat.
  rewrite (table_nth self 100), (table_nth self 101) by lia.
  destruct (Req_dec_T (chord_sum self 101 100) (1 * chord_sum self 101 101));
    [lra|].
  destruct (Req_dec_T (chord_sum self 101 101 - chord_sum self 101 100) 0);
    [lra|].
  f_equal. rewrite INR_100, INR_101. field. lra.
Qed.

Lemma locate_one_plateau (self : t) :
  0 < chord_sum self 101 99 ->
  chord_sum self 101 99 = chord_sum self 101 100 ->
  chord_sum self 101 100 < chord_sum self 101 101 ->
  locate (table self) 1 = Raise ZeroDivisionError.
Proof.
  intros Hpos99 H99 H100. unfold locate.
  rewrite table_length. change (102 - 1)%nat with 101%nat.
  rewrite (table_nth self 101) by lia.
  destruct (scan_table self (1 * chord_sum self 101 101))
    as [(Hb & Hidx & Hmax & Hfirst) Hle].
  set (index := fst (scan (1 * chord_sum self 101 101) 101 (table self) 0 0 0)) in *.
  set (best := snd (scan (1 * chord_sum self 101 101) 101 (table self) 0 0 0)) in *.
  assert (Hbest : chord_sum self 101 100 <= best).
  { rewrite <- (table_nth self 100) by lia. apply Hmax; [lia|].
    rewrite (table_nth self 100) by lia. lra. }
  destruct Hidx as [[_ Hz] | (Hi & Hn & Hlt & Hpos)]; [lra|].
  rewrite (table_nth self index) in Hn by lia.
  assert (Hindex : (index <= 99)%nat).
  { destruct (Nat.eq_dec index 100) as [He|Hne]; [|lia].
    exfalso.
    assert (nth 99 (table self) 0 < best).
    { apply Hfirst; [lia|]. rewrite (table_nth self 99) by lia. lra. }
    rewrite (table_nth self 99) in H by lia.
    rewrite He in Hn. lra. }
  rewrite (table_nth self index), (table_nth self (index + 1)) by lia.
  pose proof (chord_sum_mono self 101 index (index + 1) ltac:(lia)).
  pose proof (chord_sum_mono self 101 (index + 1) 100 ltac:(lia)).
  destruct (Req_dec_T (chord_sum self 101 index) (1 * chord_sum self 101 101));
    [lra|].
  destruct (Req_dec_T (chord_sum self 101 (index + 1)
                       - chord_sum self 101 index) 0); [reflexivity|lra].
Qed.

(** *** The example curves *)

Lemma distance_x_axis (x1 x2 : R) :
  Point.distance (Point.mk x1 0) (Point.mk x2 0) = Rabs (x1 - x2).
Proof.
  unfold Point.distance; simpl.
  replace ((x1 - x2) * (x1 - x2) + (0 - 0) * (0 - 0)) with (Rsqr (x1 - x2))
    by (unfold Rsqr; ring).
  apply sqrt_Rsqr_abs.
Qed.

Lemma plateau_evaluate (k : nat) :
  evaluate plateau_curve (INR k / INR 101)
  = Point.mk (3 * (INR k - 99) * (INR k - 100) + 1073741824) 0.
Proof.
  rewrite INR_101.
  unfold evaluate, plateau_curve, init_coords, init, _from_points.
  cbn [a b c d e f g h p0 p1 p2 p3 Point.x Point.y Point.add Point.sub
       Point.scale].
  f_equal; field.
Qed.

Lemma INR_99 : INR 99 = 99.
Proof. rewrite INR_IZR_INZ. reflexivity. Qed.

Lemma plateau_chords :
  0 < chord_sum plateau_curve 101 99 /\
  chord_sum plateau_curve 101 99 = chord_sum plateau_curve 101 100 /\
  chord_sum plateau_curve 101 100 < chord_sum plateau_curve 101 101.
Proof.
  split; [|split].
  - apply Rlt_le_trans with (chord_sum plateau_curve 101 1).
    + rewrite chord_sum_step, !plateau_evaluate, distance_x_axis.
      change (chord_sum plateau_curve 101 0) with 0.
      change (INR 1) with 1. change (INR 0) with 0.
      replace (3 * (0 - 99) * (0 - 100) + 1073741824
               - (3 * (1 - 99) * (1 - 100) + 1073741824))
        with 594 by ring.
      rewrite Rabs_pos_eq; lra.
    + apply chord_sum_mono. lia.
  - rewrite (chord_sum_step _ _ 99), !plateau_evaluate, distance_x_axis.
    rewrite INR_99, INR_100.
    replace (3 * (99 - 99) * (99 - 100) + 1073741824
             - (3 * (100 - 99) * (100 - 100) + 1073741824))
      with 0 by ring.
    rewrite Rabs_R0. lra.
  - rewrite (chord_sum_step _ _ 100), !plateau_evaluate, distance_x_axis.
    rewrite INR_100, INR_101.
    replace (3 * (100 - 99) * (100 - 100) + 1073741824
             - (3 * (101 - 99) * (101 - 100) + 1073741824))
      with (-6) by ring.
    rewrite Rabs_left; lra.
Qed.

Lemma init_wf (q0 q1 q2 q3 : Point.t) : wf (init q0 q1 q2 q3).
Proof.
  split.
  - unfold coeffs_ok. simpl. repeat split.
  - left. split; reflexivity.
Qed.

Lemma point_curve_chords (k : nat) : chord_sum point_curve 101 k = 0.
Proof.
  assert (Hev : forall u, evaluate point_curve u = Point.mk 1 2).
  { intros u. unfold evaluate, point_curve, init_coords, init, _from_points;
      simpl. f_equal; ring. }
  induction k as [|k IH]; [reflexivity|].
  rewrite chord_sum_step, IH, !Hev, distance_same. lra.
Qed.

Lemma segment_evaluate (u : R) :
  evaluate segment_curve u = Point.mk (3 * u) 0.
Proof.
  unfold evaluate, segment_curve, init_coords, init, _from_points; simpl.
  f_equal; ring.
Qed.

Lemma segment_chords (k : nat) :
  chord_sum segment_curve 101 (S k)
  = chord_sum segment_curve 101 k + 3 / 101.
Proof.
  rewrite chord_sum_step, !segment_evaluate, distance_x_axis.
  rewrite INR_101, S_INR.
  replace (3 * (INR k / 101) - 3 * ((INR k + 1) / 101)) with (- (3 / 101))
    by field.
  rewrite Rabs_left; lra.
Qed.

(** *** Translation *)






(** The class's methods keep a curve within [wf]. *)
Lemma reads_keep_wf (self : t) (u : R) :
  wf self ->
  wf (snd (length self)) /\ wf (snd (arc_lengths self)) /\
  wf (snd (parametrize u self)).
Proof.
  intros [Hok Hc].
  rewrite length_cached, arc_lengths_cached, parametrize_locate by assumption.
  cbn [snd].
  assert (wf (fill self)) by (split; [exact Hok | right; apply fill_built]).
  tauto.
Qed.

(** *** The claims about the curve *)


(** C4. Nothing is sampled when a curve is made; the first read of
    [arc_lengths] or [length] runs [estimate_length] at 100 segments, which
    leaves a table of 102 entries, entry [k] being the accumulated Euclidean
    distance between the consecutive samples of [evaluate] at 0/101 ..
    k/101; the table never decreases and its last entry is the value
    [length] returns. *)
Theorem arc_length_table_lazy (q0 q1 q2 q3 : Point.t) :
  let self := init q0 q1 q2 q3 in
  _arc_lengths self = [] /\
  estimate_length self 100 = (arc self, set_arc_lengths self (table self)) /\
  fst (arc_lengths self) = Ok (table self) /\
  _arc_lengths (snd (arc_lengths self)) = table self /\
  _arc_lengths (snd (length self)) = table self /\
  List.length (table self) = 102%nat /\
  (forall k, (k < 102)%nat -> nth k (table self) 0 = chord_sum self 101 k) /\
  sorted (table self) /\
  fst (length self) = Ok (last (table self) 0) /\
  fst (length (snd (arc_lengths self))) = Ok (last (table self) 0).
Proof.
  intros self.
  assert (Hc : cached self) by apply init_wf.
  rewrite (arc_lengths_cached self Hc), (length_cached self Hc).
  cbn [fst snd].
  rewrite (length_cached (fill self)) by (right; apply fill_built).
  destruct (fill_table self) as [_ Ha]. rewrite Ha, table_last.
  split; [reflexivity|].
  split; [apply estimate_length_eq|].
  do 3 (split; [reflexivity|]).
  split; [apply table_length|].
  split; [intros k Hk; now apply table_nth|].
  split; [apply table_sorted|].
  split; reflexivity.
Qed.



(** C2 (amended). On every curve [parametrize(0)] returns 0; and
    [parametrize(1)] returns 1 whenever the last two steps of the table
    rise, i.e. entry 99 < entry 100 < entry 101. *)
Theorem parametrize_endpoints_rising (self : t) :
  cached self ->
  fst (parametrize 0 self) = Ok 0 /\
  (forall tbl, fst (arc_lengths self) = Ok tbl ->
               nth 99 tbl 0 < nth 100 tbl 0 < nth 101 tbl 0 ->
               fst (parametrize 1 self) = Ok 1).
Proof.
  intros Hc. rewrite !parametrize_locate, arc_lengths_cached by assumption.
  cbn [fst]. split.
  - apply locate_zero_target. lra.
  - intros tbl [= <-]. rewrite !table_nth by lia. intros [H1 H2].
    now apply locate_one_rising.
Qed.

Lemma parametrize_endpoints_rising_witness :
  cached segment_curve /\
  fst (arc_lengths segment_curve) = Ok (table segment_curve) /\
  nth 99 (table segment_curve) 0 < nth 100 (table segment_curve) 0
    < nth 101 (table segment_curve) 0 /\
  fst (parametrize 0 segment_curve) = Ok 0 /\
  fst (parametrize 1 segment_curve) = Ok 1.
Proof.
  assert (Hc : cached segment_curve) by (left; split; reflexivity).
  assert (Ht : fst (arc_lengths segment_curve) = Ok (table segment_curve))
    by now rewrite arc_lengths_cached.
  assert (Hr : nth 99 (table segment_curve) 0 < nth 100 (table segment_curve) 0
               < nth 101 (table segment_curve) 0).
  { rewrite !table_nth by lia.
    rewrite (segment_chords 100), (segment_chords 99). lra. }
  destruct (parametrize_endpoints_rising segment_curve Hc) as [H0 H1].
  repeat split; try assumption; try apply Hr.
  exact (H1 _ Ht Hr).
Defined.

(** C2, as stated, fails: the curve [plateau_curve] has positive length,
    and on it [parametrize(1)] raises ZeroDivisionError. *)
Lemma parametrize_one_plateau_raises :
  (exists len, fst (length plateau_curve) = Ok len /\ 0 < len) /\
  fst (parametrize 1 plateau_curve) = Raise ZeroDivisionError.
Proof.
  assert (Hc : cached plateau_curve) by (left; split; reflexivity).
  destruct plateau_chords as (Hpos & H99 & H100).
  split.
  - exists (arc plateau_curve). rewrite length_cached by assumption.
    split; [reflexivity|]. unfold arc. lra.
  - rewrite parametrize_locate by assumption. cbn [fst].
    now apply locate_one_plateau.
Qed.

(** C10. On a curve whose length is zero every table entry is zero, and
    [parametrize(u)] returns 0 for every [u], by the exact-match branch:
    the scan stays on index 0, whose entry equals the target length. *)
Theorem parametrize_zero_length (self : t) (u : R) :
  cached self ->
  fst (length self) = Ok 0 ->
  fst (parametrize u self) = Ok 0 /\
  (forall tbl, fst (arc_lengths self) = Ok tbl ->
     Forall (fun v => v = 0) tbl /\
     fst (scan (u * nth 101 tbl 0) 101 tbl 0 0%nat 0) = 0%nat /\
     nth 0 tbl 0 = u * nth 101 tbl 0).
Proof.
  intros Hc. rewrite length_cached, parametrize_locate, arc_lengths_cached
    by assumption.
  cbn [fst]. intros [= Harc]. split.
  - apply locate_zero_target. rewrite Harc. lra.
  - intros tbl [= <-].
    assert (Hall : forall k, (k < 102)%nat -> chord_sum self 101 k = 0).
    { intros k Hk.
      pose proof (chord_sum_nonneg self 101 k).
      pose proof (chord_sum_mono self 101 k 101 ltac:(lia)).
      unfold arc in Harc. lra. }
    split; [|split].
    + apply Forall_forall. intros v Hin.
      destruct (In_nth _ _ 0 Hin) as (k & Hk & <-).
      rewrite table_length in Hk. rewrite table_nth by assumption.
      now apply Hall.
    + rewrite (table_nth self 101) by lia. rewrite (Hall 101%nat) by lia.
      replace (u * 0) with 0 by lra.
      destruct (scan_table self 0) as [(_ & Hidx & _) _].
      destruct Hidx as [[H0 _] | (_ & _ & Hlt & Hpos)]; [assumption | lra].
    + rewrite !table_nth by lia. rewrite (Hall 101%nat) by lia.
      change (chord_sum self 101 0) with 0. lra.
Qed.

Lemma parametrize_zero_length_witness :
  cached point_curve /\
  fst (length point_curve) = Ok 0 /\
  fst (parametrize (1 / 2) point_curve) = Ok 0.
Proof.
  assert (Hc : cached point_curve) by (left; split; reflexivity).
  assert (Hl : fst (length point_curve) = Ok 0).
  { rewrite length_cached by assumption. cbn [fst]. unfold arc.
    now rewrite point_curve_chords. }
  split; [exact Hc|]. split; [exact Hl|].
  exact (proj1 (parametrize_zero_length point_curve (1 / 2) Hc Hl)).
Defined.

End Curve.

(** * The size loop of [CurvedText.draw] *)

Section SizeLoop.
Import CubicBezier CurveFacts CurvedText.
Local Open Scope R_scope.

Context {Path : Type}.
Variable text_path : Z -> shaped Path.

Lemma length_returns (curve : t) :
  exists len, length curve = (Ok len, snd (length curve)).
Proof.
  unfold length. destruct (Rle_dec (_length curve) 0).
  - rewrite estimate_length_eq. eexists. reflexivity.
  - eexists. reflexivity.
Qed.

(** Once [length] was read, every later pass finds the same value and
    leaves the curve as it is. *)
Lemma shrink_fits (curve : t) (len : R) :
  length curve = (Ok len, curve) ->
  forall (k fuel : nat) (size : Z),
    (forall j, (j < k)%nat ->
               extents_width (text_path (size - Z.of_nat j)) > len) ->
    ~ extents_width (text_path (size - Z.of_nat k)) > len ->
    (k < fuel)%nat ->
    shrink text_path fuel size curve
    = (Ok (Some ((size - Z.of_nat k)%Z, text_path (size - Z.of_nat k))),
       curve).
Proof.
  intros Hlen. induction k as [|k IH]; intros fuel size Hwide Hfit Hfuel;
    (destruct fuel as [|fuel]; [lia|]); cbn [shrink]; unfold bind;
    rewrite Hlen.
  - replace (size - Z.of_nat 0)%Z with size in * by lia.
    destruct (Rgt_dec (extents_width (text_path size)) len);
      [contradiction | reflexivity].
  - pose proof (Hwide 0%nat ltac:(lia)) as H0.
    replace (size - Z.of_nat 0)%Z with size in H0 by lia.
    destruct (Rgt_dec (extents_width (text_path size)) len);
      [|contradiction].
    replace (size - Z.of_nat (S k))%Z with (size - 1 - Z.of_nat k)%Z by lia.
    apply IH; [| |lia].
    + intros j Hj.
      replace (size - 1 - Z.of_nat j)%Z with (size - Z.of_nat (S j))%Z by lia.
      apply Hwide. lia.
    + replace (size - 1 - Z.of_nat k)%Z with (size - Z.of_nat (S k))%Z by lia.
      exact Hfit.
Qed.

Lemma shrink_never_fits (curve : t) (len : R) :
  length curve = (Ok len, curve) ->
  forall (fuel : nat) (size : Z),
    (forall j : nat, extents_width (text_path (size - Z.of_nat j)) > len) ->
    shrink text_path fuel size curve = (Ok None, curve).
Proof.
  intros Hlen. induction fuel as [|fuel IH]; intros size Hwide;
    [reflexivity|].
  cbn [shrink]; unfold bind; rewrite Hlen.
  pose proof (Hwide 0%nat) as H0.
  replace (size - Z.of_nat 0)%Z with size in H0 by lia.
  destruct (Rgt_dec (extents_width (text_path size)) len); [|contradiction].
  apply IH. intros j.
  replace (size - 1 - Z.of_nat j)%Z with (size - Z.of_nat (S j))%Z by lia.
  apply Hwide.
Qed.

(** The first pass reads [length] on the curve as given; from then on the
    loop runs on the curve that read left behind. *)
Lemma shrink_first_read (curve : t) (fuel : nat) (size : Z) :
  fst (shrink text_path fuel size curve)
  = fst (shrink text_path fuel size (snd (length curve))).
Proof.
  destruct fuel as [|fuel]; [reflexivity|].
  cbn [shrink]; unfold bind. rewrite length_again.
  destruct (length curve) as [[len|ex] curve']; cbn [fst snd]; reflexivity.
Qed.

(** C8 (amended). The loop has no floor size.  Counting down from the
    nominal size in steps of 1 it stops at the first size whose measured
    width does not exceed the curve length, whatever that size is; when
    every size is too wide it is still running after any number of
    passes. *)
Theorem shrink_stops_at_first_fit (curve : t) (size : Z) (len : R) :
  fst (length curve) = Ok len ->
  (forall k : nat,
      (forall j, (j < k)%nat ->
                 extents_width (text_path (size - Z.of_nat j)) > len) ->
      ~ extents_width (text_path (size - Z.of_nat k)) > len ->
      forall fuel, (k < fuel)%nat ->
        fst (shrink text_path fuel size curve)
        = Ok (Some ((size - Z.of_nat k)%Z, text_path (size - Z.of_nat k)))) /\
  ((forall j : nat, extents_width (text_path (size - Z.of_nat j)) > len) ->
   forall fuel, fst (shrink text_path fuel size curve) = Ok None).
Proof.
  intros Hlen.
  assert (Hagain : length (snd (length curve)) = (Ok len, snd (length curve))).
  { rewrite length_again, Hlen. reflexivity. }
  split.
  - intros k Hwide Hfit fuel Hfuel. rewrite shrink_first_read.
    now rewrite (shrink_fits _ _ Hagain k fuel size).
  - intros Hwide fuel. rewrite shrink_first_read.
    now rewrite (shrink_never_fits _ _ Hagain fuel size).
Qed.
End SizeLoop.

Section SizeLoopExamples.
Import CubicBezier CurveFacts CurvedText.
Local Open Scope R_scope.

Lemma segment_chord_sum (k : nat) :
  chord_sum segment_curve 101 k = INR k * (3 / 101).
Proof.
  induction k as [|k IH].
  - change (chord_sum segment_curve 101 0) with 0. change (INR 0) with 0. lra.
  - rewrite segment_chords, IH, S_INR. lra.
Qed.

Lemma segment_length : fst (length segment_curve) = Ok 3.
Proof.
  rewrite length_cached by (left; split; reflexivity). cbn [fst].
  unfold arc. rewrite segment_chord_sum, INR_101. f_equal. field.
Qed.

Lemma point_length : fst (length point_curve) = Ok 0.
Proof.
  rewrite length_cached by (left; split; reflexivity). cbn [fst].
  unfold arc. now rewrite point_curve_chords.
Qed.

Lemma shrink_stops_at_first_fit_witness :
  fst (length segment_curve) = Ok 3 /\
  fst (shrink linear_shaper 10 5 segment_curve)
  = Ok (Some (3%Z, linear_shaper 3)) /\
  fst (length point_curve) = Ok 0 /\
  fst (shrink constant_shaper 10 5 point_curve) = Ok None.
Proof.
  destruct (shrink_stops_at_first_fit linear_shaper segment_curve 5 3
              segment_length) as [Hstop _].
  destruct (shrink_stops_at_first_fit constant_shaper point_curve 5 0
              point_length) as [_ Hrun].
  split; [exact segment_length|]. split.
  - apply (Hstop 2%nat).
    + intros j Hj. unfold linear_shaper. cbn [extents_width].
      destruct j as [|[|j]]; [simpl; lra | simpl; lra | lia].
    + unfold linear_shaper. cbn [extents_width]. simpl. lra.
    + lia.
  - split; [exact point_length|].
    apply Hrun. intros j. unfold constant_shaper. cbn [extents_width]. lra.
Defined.

(** C8, as stated, fails: with a text that is one unit wide at every size
    and a curve of length zero the loop is still running after any number
    of passes; no floor size stops it. *)
Lemma shrink_without_floor_runs_on :
  fst (length point_curve) = Ok 0 /\
  (forall size : Z, extents_width (constant_shaper size) = 1) /\
  (forall fuel : nat,
      fst (shrink constant_shaper fuel 12 point_curve) = Ok None).
Proof.
  split; [exact point_length|]. split; [reflexivity|].
  intros fuel.
  assert (Hagain : length (snd (length point_curve))
                   = (Ok 0, snd (length point_curve))).
  { rewrite length_again, point_length. reflexivity. }
  rewrite shrink_first_read.
  rewrite (shrink_never_fits constant_shaper _ _ Hagain); [reflexivity|].
  intros j. unfold constant_shaper. cbn [extents_width]. lra.
Qed.
End SizeLoopExamples.

(** * The blend loop *)

Section Blend.
Import custom.
Context {St : Type}.

(** A byte survives the division by 255, the multiplication by 255 and the
    rounding: all 256 cases by evaluation on binary64. *)
Lemma byte_round_trip (v : byte) (s : St) :
  py_round (PrimFloat.mul
              (PrimFloat.div (float_of_Z (byte_to_Z v)) (float_of_Z 255))
              (float_of_Z 255)) s
  = (Ok (byte_to_Z v), s).
Proof. destruct v; vm_compute; reflexivity. Qed.

Lemma rgb_round_trip (px : pixel) (s : St) :
  rgb_to_bytes (rgb_from_bytes px) s = (Ok (pixel_ints px), s).
Proof.
  destruct px as [[[cr cg] cb] ca].
  unfold rgb_to_bytes, rgb_from_bytes, pixel_ints. cbn [r g b a].
  unfold bind. rewrite !byte_round_trip. reflexivity.
Qed.

Lemma blend_pixel_transparent (tint : Vector4) (intensity : float)
      (px0 px1 : pixel) (s : St) :
  snd px0 = x00 ->
  blend_pixel tint intensity px0 px1 s = (Ok (pixel_ints px1), s).
Proof.
  destruct px0 as [[[cr cg] cb] ca]. cbn [snd]. intros ->.
  unfold blend_pixel.
  replace (PrimFloat.eqb (a (rgb_from_bytes (cr, cg, cb, x00))) (float_of_Z 0))
    with true by (vm_compute; reflexivity).
  apply rgb_round_trip.
Qed.

Lemma skipn_nth_error {A} (l : list A) : forall (i : nat) (v : A),
  nth_error l i = Some v -> skipn i l = v :: skipn (S i) l.
Proof.
  induction l as [|w l IH]; intros [|i] v H; simpl in H; try discriminate.
  - now injection H as ->.
  - rewrite skipn_cons. now apply IH.
Qed.

Lemma blend_loop_transparent (tint : Vector4) (intensity : float)
      (r1_data : list pixel) (s : St) :
  forall (r0_rest : list pixel) (i : nat) (out_data : list ipixel),
    Forall (fun px => snd px = x00) r0_rest ->
    (i + List.length r0_rest <= List.length r1_data)%nat ->
    blend_loop tint intensity r0_rest r1_data i out_data s
    = (Ok (out_data
           ++ map pixel_ints (firstn (List.length r0_rest) (skipn i r1_data))),
       s).
Proof.
  induction r0_rest as [|px0 rest IH]; intros i out_data Hall Hlen.
  - cbn [blend_loop List.length firstn map]. now rewrite app_nil_r.
  - cbn [List.length] in Hlen. inversion Hall as [|? ? Hpx Hrest]; subst.
    cbn [blend_loop].
    destruct (nth_error r1_data i) as [px1|] eqn:Hnth.
    + unfold bind. rewrite blend_pixel_transparent by assumption.
      rewrite IH by (assumption || lia).
      rewrite <- app_assoc. do 2 f_equal.
      rewrite (skipn_nth_error _ _ _ Hnth). reflexivity.
    + apply nth_error_None in Hnth. lia.
Qed.

(** C5. When mask and base hold the same number of pixels and every mask
    pixel has alpha 0, the blend loop returns the base image's own byte
    values, pixel for pixel, whatever the tint and the intensity. *)
Theorem blend_identity (tint : Vector4) (intensity : float)
        (mask base : list pixel) (s : St) :
  List.length mask = List.length base ->
  Forall (fun px => snd px = x00) mask ->
  blend tint intensity mask base s = (Ok (map pixel_ints base), s).
Proof.
  intros Hlen Hall. unfold blend.
  rewrite blend_loop_transparent by (assumption || lia).
  rewrite Hlen. cbn [skipn app]. now rewrite firstn_all.
Qed.
End Blend.

Lemma blend_identity_witness :
  List.length Examples.clear_mask = List.length Examples.some_base /\
  Forall (fun px => snd px = x00) Examples.clear_mask /\
  custom.blend Examples.white (custom.float_of_Z 3) Examples.clear_mask
               Examples.some_base tt
  = (Ok [(1, 254, 128, 127); (0, 255, 51, 255); (200, 100, 50, 0)]%Z, tt).
Proof.
  assert (Hlen : List.length Examples.clear_mask
                 = List.length Examples.some_base) by reflexivity.
  assert (Hall : Forall (fun px => snd px = x00) Examples.clear_mask)
    by (repeat constructor).
  split; [exact Hlen|]. split; [exact Hall|].
  exact (blend_identity Examples.white (custom.float_of_Z 3)
           Examples.clear_mask Examples.some_base tt Hlen Hall).
Defined.

(** * The composition pipeline *)

Section Pipeline.
Import component.
Local Open Scope string_scope.
Local Open Scope py_scope.





End Pipeline.

Section PipelineExamples.
Import component.
Local Open Scope string_scope.
Local Open Scope Z_scope.




(** C7, on the failing input: for a clip region of shape "curve",
    [draw_clip_region] raises AttributeError at [ShapeType.path] before it
    reaches the branch that prints the error; the exception leaves
    [render_component] and ends the render: nothing is printed about the
    curve, nothing is painted, no output is written. *)
Theorem curve_clip_aborts_render :
  (forall reg ctx,
      generate.draw_clip_region (mkClip reg curve) ctx
      = (Raise AttributeError, ctx)) /\
  (forall env layer text image reg curve_ custom_ font type data ctx,
      fst (generate.render_component env
             (mkComponent layer text image (Some (mkClip reg curve))
                          curve_ custom_ font type) data ctx)
      = Raise AttributeError) /\
  generate.main Examples.no_files Examples.card
                [Examples.portrait_layer; Examples.curve_clipped]
  = (Raise AttributeError,
     cairo.mkContext [] [] [] ["ComponentType.base"%string] [] false).
Proof.
  split; [|split].
  - intros reg ctx. reflexivity.
  - intros. reflexivity.
  - vm_compute. reflexivity.
Qed.
End PipelineExamples.

(** * More about the curve *)

Section CurveMore.
Import CubicBezier CurveFacts.
Local Open Scope R_scope.

Lemma cubic_derivative (ka kb kc kd u : R) :
  derivable_pt_lim (fun v => ka * v ^ 3 + kb * v ^ 2 + kc * v + kd) u
                   (3 * ka * u ^ 2 + 2 * kb * u + kc).
Proof.
  pose proof (derivable_pt_lim_plus _ _ u _ _
    (derivable_pt_lim_plus _ _ u _ _
      (derivable_pt_lim_plus _ _ u _ _
        (derivable_pt_lim_scal _ ka u _ (derivable_pt_lim_pow u 3))
        (derivable_pt_lim_scal _ kb u _ (derivable_pt_lim_pow u 2)))
      (derivable_pt_lim_scal _ kc u _ (derivable_pt_lim_id u)))
    (derivable_pt_lim_const kd u)) as H.
  intros eps Heps. destruct (H eps Heps) as [delta Hd].
  exists delta. intros k Hk Hkd. specialize (Hd k Hk Hkd).
  unfold plus_fct, mult_real_fct, fct_cte, id in Hd.
  change (pred 3) with 2%nat in Hd. change (pred 2) with 1%nat in Hd.
  replace (INR 3) with 3 in Hd by (simpl; lra).
  replace (INR 2) with 2 in Hd by (simpl; lra).
  match goal with
  | |- Rabs ?lhs < _ =>
      match type of Hd with
      | Rabs ?rhs < _ => replace lhs with rhs; [exact Hd|]
      end
  end.
  field. exact Hk.
Qed.

(** X1. [tangent] is the derivative of [evaluate]: at every parameter, in
    each coordinate, whatever the coefficients. *)
Theorem tangent_is_derivative (self : t) (u : R) :
  derivable_pt_lim (fun v => Point.x (evaluate self v)) u
                   (Point.x (tangent self u)) /\
  derivable_pt_lim (fun v => Point.y (evaluate self v)) u
                   (Point.y (tangent self u)).
Proof. split; apply cubic_derivative. Qed.











Lemma Ok_inj {A} (v w : A) : Ok v = Ok w -> v = w.
Proof. now intros [= ->]. Qed.

Lemma locate_bracket (self : t) (u v : R) :
  0 <= u <= 1 ->
  locate (table self) u = Ok v ->
  exists index frac,
    (index <= 100)%nat /\ 0 <= frac <= 1 /\
    v = (INR index + frac) / 101 /\
    chord_sum self 101 index
    + frac * (chord_sum self 101 (index + 1) - chord_sum self 101 index)
    = u * arc self.
Proof.
  intros Hu. unfold locate.
  rewrite table_length. change (102 - 1)%nat with 101%nat.
  rewrite (table_nth self 101) by lia. fold (arc self).
  destruct (scan_table self (u * arc self))
    as [(Hb & Hidx & Hmax & Hfirst) Hle].
  set (index := fst (scan (u * arc self) 101 (table self) 0 0 0)) in *.
  set (best := snd (scan (u * arc self) 101 (table self) 0 0 0)) in *.
  rewrite (table_nth self index), (table_nth self (index + 1)) by lia.
  pose proof (chord_sum_nonneg self 101 101) as Harc. fold (arc self) in Harc.
  pose proof (chord_sum_mono self 101 index (index + 1) ltac:(lia)) as Hstep.
  destruct (Req_dec_T (chord_sum self 101 index) (u * arc self)) as [Heq|Hne].
  - intros Hv. apply Ok_inj in Hv. subst v. exists index, 0. rewrite INR_101.
    repeat split; try lia; try lra.
  - destruct (Req_dec_T (chord_sum self 101 (index + 1)
                         - chord_sum self 101 index) 0) as [Hz|Hnz];
      [discriminate|].
    intros Hv. apply Ok_inj in Hv. subst v.
    exists index, ((u * arc self - chord_sum self 101 index)
                   / (chord_sum self 101 (index + 1) - chord_sum self 101 index)).
    assert (Hlow : chord_sum self 101 index < u * arc self).
    { destruct Hidx as [[Hi0 Hb0] | (_ & Hn & Hlt & _)].
      - rewrite Hi0 in Hne |- *. change (chord_sum self 101 0) with 0 in *.
        assert (0 <= u * arc self) by (apply Rmult_le_pos; lra). lra.
      - rewrite (table_nth self index) in Hn by lia. lra. }
    assert (Hhigh : u * arc self <= chord_sum self 101 (index + 1)).
    { destruct (Nat.eq_dec index 100) as [->|Hne100].
      - change (100 + 1)%nat with 101%nat. fold (arc self).
        assert (u * arc self <= 1 * arc self)
          by (apply Rmult_le_compat_r; lra). lra.
      - destruct (Rle_dec (u * arc self) (chord_sum self 101 (index + 1)))
          as [|Hgt]; [assumption|]. exfalso.
        assert (Hj : nth (index + 1) (table self) 0 <= best).
        { apply Hmax; [lia|]. rewrite table_nth by lia. lra. }
        rewrite table_nth in Hj by lia.
        destruct Hidx as [[Hi0 Hb0] | (_ & Hn & _)].
        + rewrite Hi0 in *. change (chord_sum self 101 0) with 0 in *. lra.
        + rewrite (table_nth self index) in Hn by lia. lra. }
    rewrite INR_101. repeat split; try lia.
    + apply Rmult_le_pos; [lra|]. left. apply Rinv_0_lt_compat. lra.
    + apply Rmult_le_reg_r
        with (chord_sum self 101 (index + 1) - chord_sum self 101 index);
        [lra|].
      unfold Rdiv. rewrite Rmult_assoc, Rinv_l by lra. lra.
    + unfold Rdiv. rewrite Rmult_assoc, Rinv_l by lra. lra.
Qed.



Lemma locate_outcomes (self : t) (u : R) :
  locate (table self) u = Raise ZeroDivisionError \/
  exists v, locate (table self) u = Ok v.
Proof.
  unfold locate.
  repeat match goal with
         | |- context [Req_dec_T ?p ?q] => destruct (Req_dec_T p q)
         end; eauto.
Qed.

Lemma locate_strict (self : t) (u : R) :
  (forall k, (k < 101)%nat ->
             chord_sum self 101 k < chord_sum self 101 (S k)) ->
  exists v, locate (table self) u = Ok v.
Proof.
  intros Hstrict. unfold locate.
  rewrite table_length. change (102 - 1)%nat with 101%nat.
  destruct (scan_table self (u * nth 101 (table self) 0)) as [_ Hle].
  set (index := fst (scan (u * nth 101 (table self) 0) 101 (table self) 0 0 0))
    in *.
  rewrite (table_nth self index), (table_nth self (index + 1)) by lia.
  pose proof (Hstrict index ltac:(lia)) as Hs.
  replace (S index) with (index + 1)%nat in Hs by lia.
  destruct (Req_dec_T (chord_sum self 101 index) (u * nth 101 (table self) 0));
    [eauto|].
  destruct (Req_dec_T (chord_sum self 101 (index + 1)
                       - chord_sum self 101 index) 0); [lra | eauto].
Qed.

(** X7. On a curve of the class [parametrize] either returns or raises
    ZeroDivisionError, never an IndexError, and in both cases it leaves the
    table built; when the table rises strictly from each entry to the next
    it returns for every [u]. *)
Theorem parametrize_failure_mode (self : t) (u : R) :
  cached self ->
  (fst (parametrize u self) = Raise ZeroDivisionError \/
   exists v, fst (parametrize u self) = Ok v) /\
  fst (arc_lengths self) = Ok (_arc_lengths (snd (parametrize u self))) /\
  (forall tbl,
      fst (arc_lengths self) = Ok tbl ->
      (forall k, (k < 101)%nat -> nth k tbl 0 < nth (S k) tbl 0) ->
      exists v, fst (parametrize u self) = Ok v).
Proof.
  intros Hc. rewrite parametrize_locate, arc_lengths_cached by assumption.
  cbn [fst snd]. split; [apply locate_outcomes|]. split; [reflexivity|].
  intros tbl Htbl Hstrict. apply Ok_inj in Htbl. subst tbl.
  apply locate_strict. intros k Hk.
  specialize (Hstrict k Hk). rewrite !table_nth in Hstrict by lia.
  exact Hstrict.
Qed.

Lemma parametrize_failure_mode_witness :
  cached segment_curve /\
  (forall k, (k < 101)%nat ->
     nth k (table segment_curve) 0 < nth (S k) (table segment_curve) 0) /\
  exists v, fst (parametrize (1 / 3) segment_curve) = Ok v.
Proof.
  assert (Hc : cached segment_curve) by (left; split; reflexivity).
  assert (Hs : forall k, (k < 101)%nat ->
     nth k (table segment_curve) 0 < nth (S k) (table segment_curve) 0).
  { intros k Hk. rewrite !table_nth by lia. rewrite segment_chords. lra. }
  split; [exact Hc|]. split; [exact Hs|].
  apply (proj2 (proj2 (parametrize_failure_mode segment_curve (1 / 3) Hc))
           (table segment_curve)).
  - now rewrite arc_lengths_cached.
  - exact Hs.
Defined.

(** X8. The table is computed once: a second read of [length] or of
    [arc_lengths] returns what the first read returned and leaves the curve
    as the first read left it. *)
Theorem reads_are_cached (self : t) :
  length (snd (length self)) = (fst (length self), snd (length self)) /\
  arc_lengths (snd (arc_lengths self))
  = (fst (arc_lengths self), snd (arc_lengths self)).
Proof.
  split; [apply length_again|].
  unfold arc_lengths at 2 3 4.
  destruct (List.length (_arc_lengths self) <=? 0)%nat eqn:Hlen.
  - rewrite estimate_length_eq. cbn [fst snd].
    change (set_length (set_arc_lengths self (table self)) (arc self))
      with (fill self).
    rewrite (arc_lengths_cached (fill self)) by (right; apply fill_built).
    destruct (fill_table self) as [Ht _]. rewrite Ht, fill_idem.
    reflexivity.
  - cbn [fst snd]. unfold arc_lengths. rewrite Hlen. reflexivity.
Qed.

End CurveMore.

(** * More about the curved text *)

Section CurvedTextMore.
Import CubicBezier CurveFacts CurvedText.
Local Open Scope R_scope.

Section Shrink.
Context {Path : Type}.
Variable text_path : Z -> shaped Path.

Lemma shrink_result_fits (crv : t) (len : R) :
  length crv = (Ok len, crv) ->
  forall (fuel : nat) (size size' : Z) (s : shaped Path),
    fst (shrink text_path fuel size crv) = Ok (Some (size', s)) ->
    extents_width s <= len /\ (size' <= size)%Z /\ s = text_path size'.
Proof.
  intros Hlen. induction fuel as [|fuel IH]; intros size size' s.
  - cbn [shrink]. unfold ret. cbn [fst]. discriminate.
  - cbn [shrink]. unfold bind. rewrite Hlen.
    destruct (Rgt_dec (extents_width (text_path size)) len) as [Hwide|Hfit].
    + intros H. destruct (IH _ _ _ H) as (Hw & Hs & Heq).
      repeat split; try assumption. lia.
    + unfold ret. cbn [fst]. intros H. apply Ok_inj in H.
      injection H as <- <-. repeat split; try lia. lra.
Qed.

(** X9. Whatever the shaper, a size the size loop stops on fits: the text
    shaped at that size is no wider than the curve is long, and the size is
    the nominal one or below it. *)
Theorem shrink_result_fits_curve (crv : t) (fuel : nat) (size size' : Z)
        (s : shaped Path) :
  fst (shrink text_path fuel size crv) = Ok (Some (size', s)) ->
  exists len,
    fst (length crv) = Ok len /\
    extents_width s <= len /\ (size' <= size)%Z /\ s = text_path size'.
Proof.
  intros H. destruct (length_returns crv) as [len Hlen].
  exists len. split; [now rewrite Hlen|].
  rewrite shrink_first_read in H.
  apply (shrink_result_fits (snd (length crv)) len) with (fuel := fuel)
                                                         (size := size).
  - rewrite length_again, Hlen. reflexivity.
  - exact H.
Qed.
End Shrink.

Lemma shrink_result_fits_curve_witness :
  fst (shrink linear_shaper 10 5 segment_curve)
  = Ok (Some (3%Z, linear_shaper 3)) /\
  exists len, fst (length segment_curve) = Ok len /\
              extents_width (linear_shaper 3) <= len.
Proof.
  assert (H : fst (shrink linear_shaper 10 5 segment_curve)
              = Ok (Some (3%Z, linear_shaper 3))).
  { rewrite shrink_first_read.
    assert (Hagain : length (snd (length segment_curve))
                     = (Ok 3, snd (length segment_curve))).
    { rewrite length_again, segment_length. reflexivity. }
    rewrite (shrink_fits linear_shaper _ _ Hagain 2 10 5); [reflexivity| | |lia].
    - intros j Hj. unfold linear_shaper. cbn [extents_width].
      destruct j as [|[|j]]; [simpl; lra | simpl; lra | lia].
    - unfold linear_shaper. cbn [extents_width]. simpl. lra. }
  split; [exact H|].
  destruct (shrink_result_fits_curve linear_shaper segment_curve 10 5 3
              (linear_shaper 3) H) as (len & Hlen & Hw & _).
  exists len. split; assumption.
Defined.




(** X11. On a curve whose four control points coincide [_fit] raises
    ZeroDivisionError for every point and every width: [parametrize]
    returns, but the tangent there is the zero vector and the normal cannot
    be normalised. *)
Theorem fit_on_point_curve_raises (q : Point.t) (width x y : R)
        (range : R * R) :
  fst (_fit width x y range (init q q q q)) = Raise ZeroDivisionError.
Proof.
  set (self := init q q q q).
  assert (Hc : cached self) by apply init_wf.
  assert (Hev : forall u, evaluate self u = q).
  { intros u. destruct q as [qx qy].
    unfold self, evaluate, init, _from_points, Point.add, Point.sub,
      Point.scale.
    cbn [a b c d e f g h Point.x Point.y]. f_equal; ring. }
  assert (Harc : arc self = 0).
  { unfold arc. generalize 101%nat at 2. intros k.
    induction k as [|k IH]; [reflexivity|].
    rewrite chord_sum_step, IH, !Hev, distance_same. lra. }
  unfold _fit. unfold bind at 1. unfold truediv at 1.
  destruct (Req_dec_T width 0) as [|Hwidth]; [reflexivity|].
  unfold ret at 1. destruct range as [nmin nmax].
  unfold bind at 1. rewrite parametrize_locate by assumption.
  rewrite locate_zero_target by (rewrite Harc; lra).
  change (tangent (CurveFacts.fill self) 0) with (tangent self 0).
  assert (Htg : tangent self 0 = Point.mk 0 0).
  { destruct q as [qx qy].
    unfold self, tangent, init, _from_points, Point.add, Point.sub,
      Point.scale.
    cbn [a b c d e f g h Point.x Point.y]. f_equal; ring. }
  rewrite Htg. cbn [Point.x Point.y].
  replace (sqrt ((- 0) ^ 2 + 0 ^ 2)) with 0
    by (replace ((- 0) ^ 2 + 0 ^ 2) with 0 by ring; now rewrite sqrt_0).
  unfold bind, truediv.
  destruct (Req_dec_T 0 0) as [|Hne]; [reflexivity | now elim Hne].
Qed.

Lemma on_curve_calls {A} (m : M t A) (st : drawing) :
  calls (snd (on_curve m st)) = calls st.
Proof. unfold on_curve. destruct (m (curve st)). reflexivity. Qed.

Ltac run_fit :=
  match goal with
  | |- context [on_curve (_fit ?w ?x ?y ?r) ?st] =>
      let H := fresh "Hcalls" in
      pose proof (on_curve_calls (_fit w x y r) st) as H;
      destruct (on_curve (_fit w x y r) st) as [[? | ?] ?];
      cbn [fst snd] in H |- *
  end.

Lemma fit_path_calls (width : R) (rng : R * R) :
  forall (glyphs : list path_cmd) (st : drawing),
  exists new,
    calls (snd (fit_path width rng glyphs st)) = calls st ++ new /\
    Forall is_path_call new /\
    (fst (fit_path width rng glyphs st) = Ok tt -> Forall2 same_kind glyphs new).
Proof.
  induction glyphs as [|cmd rest IH]; intros st.
  - exists []. cbn. rewrite app_nil_r. repeat split; constructor.
  - assert (Hraise : forall (ex : exn) (st' : drawing),
               calls st' = calls st ->
               exists new,
                 calls (snd (@Raise unit ex, st')) = calls st ++ new /\
                 Forall is_path_call new /\
                 (fst (@Raise unit ex, st') = Ok tt ->
                  Forall2 same_kind (cmd :: rest) new)).
    { intros ex st' Hst. exists []. cbn [fst snd]. rewrite app_nil_r.
      split; [assumption|]. split; [constructor | discriminate]. }
    assert (Hgo : forall (c : call) (st' : drawing),
               calls st' = calls st -> is_path_call c -> same_kind cmd c ->
               exists new,
                 calls (snd (fit_path width rng rest
                               (mk_drawing (curve st') (calls st' ++ [c]))))
                 = calls st ++ new /\
                 Forall is_path_call new /\
                 (fst (fit_path width rng rest
                         (mk_drawing (curve st') (calls st' ++ [c]))) = Ok tt ->
                  Forall2 same_kind (cmd :: rest) new)).
    { intros c st' Hst Hpc Hsk.
      destruct (IH (mk_drawing (curve st') (calls st' ++ [c])))
        as (new & Hnew & Hall & Hkind).
      exists (c :: new).
      split; [rewrite Hnew; cbn [calls]; rewrite Hst, <- app_assoc;
              reflexivity|].
      split; [constructor; assumption|].
      intros Hfst. constructor; [assumption | now apply Hkind]. }
    cbn [fit_path]. unfold bind, context.
    destruct cmd as [x y | x y | x1 y1 x2 y2 x3 y3 |];
      repeat run_fit;
      first [ apply Hraise; congruence
            | apply Hgo; [congruence | exact I | exact I] ].
Qed.

(** X12. When the path loop of [draw] runs through, the calls it made on
    the context answer the glyph outline element by element: a move for a
    move, a line for a line, a cubic segment for a cubic segment, a close
    for a close, in the same order; it makes no other call. *)
Theorem fit_path_keeps_structure (width : R) (rng : R * R)
        (glyphs : list path_cmd) (st : drawing) :
  fst (fit_path width rng glyphs st) = Ok tt ->
  exists new,
    calls (snd (fit_path width rng glyphs st)) = calls st ++ new /\
    Forall2 same_kind glyphs new.
Proof.
  intros Hok. destruct (fit_path_calls width rng glyphs st)
    as (new & Hnew & _ & Hkind).
  exists new. split; [exact Hnew | now apply Hkind].
Qed.

Lemma segment_tangent (u : R) : tangent segment_curve u = Point.mk 3 0.
Proof.
  unfold tangent, segment_curve, init_coords, init, _from_points; simpl.
  f_equal; ring.
Qed.

Lemma segment_fit_returns (x y : R) (crv : t) :
  crv = segment_curve \/ crv = CurveFacts.fill segment_curve ->
  exists p, _fit 3 x y (0, 1) crv = (Ok p, CurveFacts.fill segment_curve).
Proof.
  intros Hcrv.
  assert (Hc : cached crv).
  { destruct Hcrv as [-> | ->]; [left; split; reflexivity|].
    right. apply fill_built. }
  assert (Hfill : CurveFacts.fill crv = CurveFacts.fill segment_curve).
  { destruct Hcrv as [-> | ->]; [reflexivity | apply fill_idem]. }
  assert (Htab : table crv = table segment_curve).
  { destruct Hcrv as [-> | ->]; [reflexivity | apply fill_table]. }
  unfold _fit. unfold bind at 1. unfold truediv at 1.
  destruct (Req_dec_T 3 0) as [|_]; [lra|]. unfold ret at 1.
  unfold bind at 1. rewrite parametrize_locate by assumption.
  rewrite Hfill, Htab.
  destruct (locate_strict segment_curve (x / 3 * (1 - 0) + 0)) as [u Hu].
  { intros k _. rewrite segment_chords. lra. }
  rewrite Hu.
  change (tangent (CurveFacts.fill segment_curve) u)
    with (tangent segment_curve u).
  rewrite segment_tangent. cbn [Point.x Point.y].
  set (mag := sqrt ((- 0) ^ 2 + 3 ^ 2)).
  assert (Hmag : mag <> 0).
  { unfold mag. intros H0. apply sqrt_eq_0 in H0; lra. }
  unfold bind, truediv, ret.
  destruct (Req_dec_T mag 0) as [|_]; [contradiction|].
  eexists. reflexivity.
Qed.

Lemma fit_path_keeps_structure_witness :
  fst (fit_path 3 (0, 1) two_glyphs (mk_drawing segment_curve [save]))
  = Ok tt /\
  exists new,
    calls (snd (fit_path 3 (0, 1) two_glyphs (mk_drawing segment_curve [save])))
    = [save] ++ new /\
    Forall2 same_kind two_glyphs new.
Proof.
  assert (H : fst (fit_path 3 (0, 1) two_glyphs
                     (mk_drawing segment_curve [save])) = Ok tt).
  { unfold two_glyphs. cbn [fit_path]. unfold bind, on_curve. cbn [curve calls].
    destruct (segment_fit_returns 1 2 segment_curve (or_introl eq_refl))
      as [p Hp].
    rewrite Hp. reflexivity. }
  split; [exact H|].
  exact (fit_path_keeps_structure 3 (0, 1) two_glyphs
           (mk_drawing segment_curve [save]) H).
Defined.


Lemma path_calls_no_save_restore (cs : list call) :
  Forall is_path_call cs -> ~ In restore cs /\ ~ In save cs.
Proof.
  intros Hall. rewrite Forall_forall in Hall.
  split; intros Hin; apply Hall in Hin; exact Hin.
Qed.

(** X13. [draw] opens with [context.save()] and calls [context.restore()]
    only as its last call when it returns; when it raises (or is still in
    its size loop) the save is left without its restore. *)
Theorem draw_restores_only_on_return
        (text_path : Z -> shaped (list path_cmd)) (self_size : Z)
        (outline : option rgb) (colour : rgb) (fuel : nat) (st : drawing) :
  exists new,
    calls (snd (draw text_path self_size outline colour fuel st))
    = calls st ++ save :: new /\
    (fst (draw text_path self_size outline colour fuel st) = Ok (Some tt) ->
     exists body, new = body ++ [restore] /\
                  ~ In restore body /\ ~ In save body) /\
    (fst (draw text_path self_size outline colour fuel st) <> Ok (Some tt) ->
     ~ In restore new).
Proof.
  destruct (draw text_path self_size outline colour fuel st) as [res st']
    eqn:Hdraw.
  cbn [fst snd].
  assert (Hstop : forall new : list call,
             calls st' = (calls st ++ [save]) ++ new ->
             ~ In restore new ->
             res <> Ok (Some tt) ->
             exists new',
               calls st' = calls st ++ save :: new' /\
               (res = Ok (Some tt) ->
                exists body, new' = body ++ [restore] /\
                             ~ In restore body /\ ~ In save body) /\
               (res <> Ok (Some tt) -> ~ In restore new')).
  { intros new Hst' Hno Hres. exists new.
    split; [rewrite Hst', <- app_assoc; reflexivity|].
    split; [intros Habs; contradiction | intros _; assumption]. }
  unfold draw in Hdraw. unfold bind at 1 in Hdraw.
  unfold context at 1 in Hdraw.
  set (st0 := mk_drawing (curve st) (calls st ++ [save])) in Hdraw.
  assert (Hst0 : calls st0 = calls st ++ [save]) by reflexivity.
  clearbody st0.
  unfold bind at 1 in Hdraw.
  pose proof (on_curve_calls (shrink text_path fuel self_size) st0) as H1.
  destruct (on_curve (shrink text_path fuel self_size) st0)
    as [[[[size s]|]|ex] s1]; cbn [fst snd] in H1.
  2:{ unfold ret in Hdraw. injection Hdraw as <- <-.
      apply (Hstop []); [rewrite app_nil_r; congruence | intros []
                         | discriminate]. }
  2:{ injection Hdraw as <- <-.
      apply (Hstop []); [rewrite app_nil_r; congruence | intros []
                         | discriminate]. }
  unfold bind at 1 in Hdraw. unfold on_curve at 1 in Hdraw.
  cbv beta iota in Hdraw.
  set (s2 := mk_drawing (CubicBezier.offset (curve s1) 0 (xheight s / 2))
                        (calls s1)) in Hdraw.
  assert (H2 : calls s2 = calls st0) by exact H1. clearbody s2.
  unfold bind at 1 in Hdraw.
  pose proof (on_curve_calls CubicBezier.length s2) as H3.
  destruct (on_curve CubicBezier.length s2) as [[len|ex] s3];
    cbn [fst snd] in H3.
  2:{ injection Hdraw as <- <-.
      apply (Hstop []); [rewrite app_nil_r; congruence | intros []
                         | discriminate]. }
  unfold bind at 1 in Hdraw.
  set (range_step := if Rlt_dec (extents_width s) len
                     then _ else _) in Hdraw.
  assert (Hrange : (exists rng, range_step s3 = (Ok rng, s3)) \/
                   (exists ex, range_step s3 = (Raise ex, s3))).
  { unfold range_step. destruct (Rlt_dec (extents_width s) len).
    - unfold bind, truediv, ret, raise.
      destruct (Req_dec_T len 0); eauto.
    - unfold ret. eauto. }
  clearbody range_step.
  destruct Hrange as [[rng Hrng] | [ex Hrng]]; rewrite Hrng in Hdraw.
  2:{ injection Hdraw as <- <-.
      apply (Hstop []); [rewrite app_nil_r; congruence | intros []
                         | discriminate]. }
  unfold bind at 1 in Hdraw. unfold context at 1 in Hdraw.
  set (s4 := mk_drawing (curve s3) (calls s3 ++ [new_path])) in Hdraw.
  assert (H4 : calls s4 = calls st0 ++ [new_path])
    by (unfold s4; cbn [calls]; congruence).
  clearbody s4.
  unfold bind at 1 in Hdraw.
  destruct (fit_path_calls (extents_width s) rng (path s) s4)
    as (pc & Hpc & Hall & _).
  destruct (path_calls_no_save_restore pc Hall) as [Hnr Hns].
  destruct (fit_path (extents_width s) rng (path s) s4) as [[[]|ex] s5];
    cbn [fst snd] in Hpc.
  2:{ injection Hdraw as <- <-.
      apply (Hstop (new_path :: pc)).
      - rewrite Hpc, H4, Hst0, <- app_assoc. reflexivity.
      - intros [Hin | Hin]; [discriminate | now apply Hnr].
      - discriminate. }
  set (ol := match outline with
             | Some o => [set_source_rgb o; set_line_cap_round;
                          set_line_join_round; set_line_width 6;
                          stroke_preserve]
             | None => []
             end).
  assert (Hol : ~ In restore ol /\ ~ In save ol).
  { unfold ol. destruct outline; cbn; split; intros H;
      repeat (destruct H as [H | H]; try discriminate); exact H. }
  assert (Hfinal :
    (match outline with
     | Some o =>
         bind (context (set_source_rgb o))
           (fun _ => bind (context set_line_cap_round)
              (fun _ => bind (context set_line_join_round)
                 (fun _ => bind (context (set_line_width 6))
                    (fun _ => context stroke_preserve))))
     | None => ret tt
     end) s5 = (Ok tt, mk_drawing (curve s5) (calls s5 ++ ol))).
  { unfold ol. destruct outline; unfold bind, context, ret; cbn [curve calls].
    - rewrite <- !app_assoc. reflexivity.
    - rewrite app_nil_r. destruct s5. reflexivity. }
  unfold bind at 1 in Hdraw. rewrite Hfinal in Hdraw.
  unfold bind, context, ret in Hdraw. cbn [fst snd calls curve] in Hdraw.
  injection Hdraw as <- <-. cbn [calls].
  exists ((new_path :: pc ++ ol ++ [set_source_rgb colour; fill]) ++ [restore]).
  split; [|split].
  - rewrite Hpc, H4, Hst0. cbn [app]. rewrite <- !app_assoc. reflexivity.
  - intros _. exists (new_path :: pc ++ ol ++ [set_source_rgb colour; fill]).
    split; [reflexivity|].
    split; intros Hin; cbn [In] in Hin; destruct Hin as [Hin | Hin];
      try discriminate;
      apply in_app_or in Hin; destruct Hin as [Hin | Hin];
      try (now apply Hnr); try (now apply Hns);
      apply in_app_or in Hin; destruct Hin as [Hin | Hin];
      try (now apply (proj1 Hol)); try (now apply (proj2 Hol));
      cbn [In] in Hin; repeat (destruct Hin as [Hin | Hin]; try discriminate);
      exact Hin.
  - intros Hne. now elim Hne.
Qed.

Section Range.
Context {Path : Type}.
Variable text_path : Z -> shaped Path.



Lemma pair_inj {A B} (v v' : A) (w w' : B) :
  (v, w) = (v', w') -> v = v' /\ w = w'.
Proof.
  intros H. split; [exact (f_equal fst H) | exact (f_equal snd H)].
Qed.

Lemma Some_inj {A} (v w : A) : Some v = Some w -> v = w.
Proof. now intros [= ->]. Qed.


End Range.


End CurvedTextMore.

(** * More about the pipeline *)


Section PipelineMore.
Import component.
Local Open Scope string_scope.
Local Open Scope py_scope.

Lemma insert_by_layer_perm (comp : Component) (sorted : list Component) :
  Permutation (generate.insert_by_layer comp sorted) (comp :: sorted).
Proof.
  induction sorted as [|other rest IH]; cbn [generate.insert_by_layer].
  - apply Permutation_refl.
  - destruct (layer comp <=? layer other)%Z.
    + apply Permutation_refl.
    + eapply perm_trans; [apply perm_skip, IH | apply perm_swap].
Qed.

Lemma insert_by_layer_sorted (comp : Component) (sorted : list Component) :
  Sorted PipelineFacts.layer_le sorted ->
  Sorted PipelineFacts.layer_le (generate.insert_by_layer comp sorted).
Proof.
  induction 1 as [|other rest Hrest IH Hhd]; cbn [generate.insert_by_layer].
  - repeat constructor.
  - destruct (Z.leb_spec (layer comp) (layer other)) as [Hle|Hgt].
    + constructor; [constructor; assumption|]. constructor. exact Hle.
    + constructor; [exact IH|].
      destruct rest as [|next rest']; cbn [generate.insert_by_layer].
      * constructor. unfold PipelineFacts.layer_le. lia.
      * destruct (layer comp <=? layer next)%Z.
        -- constructor. unfold PipelineFacts.layer_le. lia.
        -- constructor. now inversion Hhd.
Qed.

Lemma insert_by_layer_filter (k : Z) (comp : Component)
      (sorted : list Component) :
  filter (fun c => (layer c =? k)%Z) (generate.insert_by_layer comp sorted)
  = filter (fun c => (layer c =? k)%Z) (comp :: sorted).
Proof.
  induction sorted as [|other rest IH]; cbn [generate.insert_by_layer];
    [reflexivity|].
  destruct (Z.leb_spec (layer comp) (layer other)) as [Hle|Hgt];
    [reflexivity|].
  cbn [filter] in IH |- *. rewrite IH.
  destruct (Z.eqb_spec (layer comp) k) as [Hc|Hc];
    destruct (Z.eqb_spec (layer other) k) as [Ho|Ho]; try reflexivity.
  lia.
Qed.

(** X15. The sort of the components by layer only reorders them, leaves
    them in ascending layer order, and is stable: components of one and the
    same layer keep the order they were declared in. *)
Theorem sort_by_layer_stable (components : list Component) :
  Permutation (generate.sort_by_layer components) components /\
  Sorted PipelineFacts.layer_le (generate.sort_by_layer components) /\
  forall k : Z,
    filter (fun c => (layer c =? k)%Z) (generate.sort_by_layer components)
    = filter (fun c => (layer c =? k)%Z) components.
Proof.
  unfold generate.sort_by_layer.
  induction components as [|comp rest (IHp & IHs & IHf)]; cbn [fold_right].
  - repeat split; constructor.
  - split; [|split].
    + eapply perm_trans; [apply insert_by_layer_perm | now apply perm_skip].
    + now apply insert_by_layer_sorted.
    + intros k. rewrite insert_by_layer_filter. cbn [filter].
      rewrite IHf. reflexivity.
Qed.


(** X17. Of the three shapes a clip region can have the ellipse is the only
    one [draw_clip_region] can build: it adds the ellipse to the path, and
    the clip step then installs it.  For a rectangle it calls
    [draw_rectangle], a name the module does not bind, and raises NameError;
    either failure ends [render_component] with nothing painted. *)
Theorem only_ellipse_clips_install
        (env : watermark.Env) (lay : Z) (txt : option Text)
        (img : option Image) (reg : Region) (shape : ShapeType)
        (crv : option Curve) (cus : option Custom) (fnt : option Font)
        (ct : ComponentType) (data : ComponentData) (ctx : cairo.Context) :
  let comp := mkComponent lay txt img (Some (mkClip reg shape)) crv cus fnt ct in
  fst (generate.draw_clip_region (mkClip reg shape) ctx)
  = PipelineFacts.clip_outcome shape /\
  fst (generate.clip_step comp ctx) = PipelineFacts.clip_outcome shape /\
  (shape = ellipse ->
   cairo.clip_state (snd (generate.clip_step comp ctx))
   = (cairo.clip_state ctx ++ [cairo.path ctx ++ [cairo.EllipsePath reg]])%list
   /\ cairo.path (snd (generate.clip_step comp ctx)) = []) /\
  (shape <> ellipse ->
   snd (generate.clip_step comp ctx) = ctx /\
   fst (generate.render_component env comp data ctx)
   = PipelineFacts.clip_outcome shape /\
   cairo.painted (snd (generate.render_component env comp data ctx))
   = cairo.painted ctx).
Proof.
  intros comp. destruct shape; cbn.
  all: repeat split; try reflexivity; try discriminate; try congruence.
  all: intros; try congruence; destruct ctx; reflexivity.
Qed.

(** X18. [main] leaves a component without data, and so does not render it,
    in four cases only: the elite layer of a card that is not elite, the
    rarity layer of a card whose rarity is not craftable or whose set is the
    core set, the multi-class layer of a card without a multi-class group,
    and the race layer of a card whose race is not visible.  Every other
    component type always gets data. *)
Theorem component_data_skips (card : Card) (ct : ComponentType) :
  generate.component_data card ct = None <->
  (ct = elite /\ card_elite card = false) \/
  (ct = rarity /\
   (rarity_craftable card = false \/ card_set_is_core card = true)) \/
  (ct = multiClass /\ multi_class_group card = None) \/
  (ct = race /\ race_visible card = false).
Proof.
  unfold generate.component_data.
  destruct ct; cbn [ComponentType_eqb description andb].
  all: try (split; [discriminate |
                    intros [[H _] | [[H _] | [[H _] | [H _]]]]; discriminate]).
  - destruct (card_elite card); cbn; split; try discriminate; intuition congruence.
  - destruct (multi_class_group card); cbn; split; try discriminate;
      intuition congruence.
  - destruct (race_visible card); cbn; split; try discriminate;
      intuition congruence.
  - destruct (rarity_craftable card), (card_set_is_core card); cbn;
      split; try discriminate; intuition congruence.
Qed.




Lemma py_round_state {St} (v : custom.float) (s : St) :
  snd (custom.py_round v s) = s.
Proof.
  unfold custom.py_round. destruct (FloatOps.Prim2SF v); reflexivity.
Qed.

Lemma rgb_to_bytes_state {St} (v : custom.Vector4) (s : St) :
  snd (custom.rgb_to_bytes v s) = s.
Proof.
  unfold custom.rgb_to_bytes, bind.
  repeat match goal with
         | |- context [custom.py_round ?w ?s0] =>
             let H := fresh in
             pose proof (py_round_state w s0) as H;
             destruct (custom.py_round w s0) as [[?|?] ?];
             cbn [snd] in H; subst
         end; reflexivity.
Qed.

Lemma blend_pixel_state {St} (tint : custom.Vector4) (k : custom.float)
      (px0 px1 : custom.pixel) (s : St) :
  snd (custom.blend_pixel tint k px0 px1 s) = s.
Proof.
  unfold custom.blend_pixel.
  destruct (PrimFloat.eqb _ _); apply rgb_to_bytes_state.
Qed.

Lemma blend_loop_state {St} (tint : custom.Vector4) (k : custom.float)
      (r1_data : list custom.pixel) (s : St) :
  forall (rest : list custom.pixel) (i : nat) (out : list custom.ipixel),
    snd (custom.blend_loop tint k rest r1_data i out s) = s.
Proof.
  induction rest as [|px0 rest IH]; intros i out; cbn [custom.blend_loop];
    [reflexivity|].
  destruct (nth_error r1_data i) as [px1|]; [|reflexivity].
  unfold bind. pose proof (blend_pixel_state tint k px0 px1 s) as Hpx.
  destruct (custom.blend_pixel tint k px0 px1 s) as [[px|ex] s1];
    cbn [snd] in Hpx; subst s1; [apply IH | reflexivity].
Qed.





End PipelineMore.

(** * More about the watermark blend *)

Section BlendMore.
Import custom.
Context {St : Type}.

(** X20. The two byte conversions are inverse to each other on pixels: a
    pixel of four bytes taken to fractions by [rgb_from_bytes] and back by
    [rgb_to_bytes] gives the four byte values it started from, and
    [rgb_to_bytes] does not raise on it. *)
Theorem rgb_bytes_round_trip (px : pixel) (s : St) :
  rgb_to_bytes (rgb_from_bytes px) s = (Ok (pixel_ints px), s).
Proof. apply rgb_round_trip. Qed.

Lemma blend_loop_pointwise (tint : Vector4) (intensity : float)
      (r1_data : list pixel) (s : St) :
  forall (r0_rest : list pixel) (i : nat) (out_data out : list ipixel),
    fst (blend_loop tint intensity r0_rest r1_data i out_data s) = Ok out ->
    exists new,
      out = out_data ++ new /\
      List.length new = List.length r0_rest /\
      forall (j : nat) (px0 : pixel),
        nth_error r0_rest j = Some px0 ->
        exists px1 px,
          nth_error r1_data (i + j) = Some px1 /\
          nth_error new j = Some px /\
          fst (blend_pixel tint intensity px0 px1 s) = Ok px.
Proof.
  induction r0_rest as [|px0 rest IH]; intros i out_data out.
  - cbn [blend_loop]. unfold ret. cbn [fst]. intros H. apply Ok_inj in H.
    exists []. rewrite app_nil_r. repeat split; [now symmetry|].
    intros [|j] px0 Hj; discriminate Hj.
  - cbn [blend_loop].
    destruct (nth_error r1_data i) as [px1|] eqn:Hnth; [|discriminate].
    unfold bind. pose proof (blend_pixel_state tint intensity px0 px1 s) as Hs.
    destruct (blend_pixel tint intensity px0 px1 s) as [[px|ex] s1] eqn:Hpx;
      cbn [snd] in Hs; subst s1; [|discriminate].
    intros H. destruct (IH _ _ _ H) as (new & Hout & Hlen & Hat).
    exists (px :: new). rewrite <- app_assoc in Hout.
    split; [exact Hout|]. split; [cbn [List.length]; now rewrite Hlen|].
    intros [|j] q Hj.
    + cbn [nth_error] in Hj. apply Some_inj in Hj. subst q.
      exists px1, px. rewrite Nat.add_0_r.
      split; [exact Hnth|]. split; [reflexivity | now rewrite Hpx].
    + cbn [nth_error] in Hj |- *. rewrite Nat.add_succ_r.
      exact (Hat j q Hj).
Qed.

(** X21. When the blend loop returns, it returns one pixel per mask pixel,
    the base image holds a pixel at every index of the mask, and the pixel at
    an index is what [blend_pixel] makes of the mask pixel and the base
    pixel at that same index: no pixel depends on its neighbours or on what
    was blended before it. *)
Theorem blend_is_pointwise (tint : Vector4) (intensity : float)
        (mask base : list pixel) (out : list ipixel) (s : St) :
  fst (blend tint intensity mask base s) = Ok out ->
  List.length out = List.length mask /\
  (List.length mask <= List.length base)%nat /\
  forall (i : nat) (px0 : pixel),
    nth_error mask i = Some px0 ->
    exists px1 px,
      nth_error base i = Some px1 /\
      nth_error out i = Some px /\
      fst (blend_pixel tint intensity px0 px1 s) = Ok px.
Proof.
  unfold blend. intros H.
  destruct (blend_loop_pointwise _ _ _ _ _ _ _ _ H) as (new & Hout & Hlen & Hat).
  cbn [app] in Hout. subst new. split; [exact Hlen|].
  split; [|exact Hat].
  destruct mask as [|px0 rest] eqn:Hmask; [cbn; lia|]. rewrite <- Hmask in *.
  destruct (nth_error mask (List.length mask - 1)) as [q|] eqn:Hlast.
  - destruct (Hat _ _ Hlast) as (px1 & _ & Hbase & _).
    cbn [Nat.add] in Hbase.
    assert (Hlt : (List.length mask - 1 < List.length base)%nat)
      by (apply nth_error_Some; rewrite Hbase; discriminate).
    assert (List.length mask <> 0)%nat by (rewrite Hmask; discriminate).
    lia.
  - apply nth_error_None in Hlast. rewrite Hmask in Hlast.
    cbn [List.length] in Hlast. lia.
Qed.

Lemma round_one (s : St) :
  py_round (PrimFloat.mul (float_of_Z 1) (float_of_Z 255)) s = (Ok 255%Z, s).
Proof. vm_compute. reflexivity. Qed.

Lemma opaque_not_skipped (v : byte) :
  v <> x00 ->
  PrimFloat.eqb (PrimFloat.div (float_of_Z (byte_to_Z v)) (float_of_Z 255))
                (float_of_Z 0) = false.
Proof.
  intros Hne. destruct v; try (vm_compute; reflexivity). now elim Hne.
Qed.

(** X22. Where the mask is not fully transparent, the pixel the blend
    produces is fully opaque: whenever [blend_pixel] returns for a mask pixel
    whose alpha byte is not 0, the alpha of the result is 255, whatever the
    base pixel's alpha, the tint and the intensity. *)
Theorem blend_pixel_opaque (tint : Vector4) (intensity : float)
        (px0 px1 : pixel) (cr cg cb ca : Z) (s : St) :
  snd px0 <> x00 ->
  fst (blend_pixel tint intensity px0 px1 s) = Ok (cr, cg, cb, ca) ->
  ca = 255%Z.
Proof.
  destruct px0 as [[[mr mg] mb] ma]. cbn [snd]. intros Hne.
  unfold blend_pixel.
  replace (PrimFloat.eqb (a (rgb_from_bytes (mr, mg, mb, ma))) (float_of_Z 0))
    with false by (symmetry; apply opaque_not_skipped; exact Hne).
  unfold rgb_to_bytes, set_a. cbn [r g b a]. unfold bind.
  repeat match goal with
         | |- context [py_round ?w s] =>
             lazymatch w with
             | PrimFloat.mul (float_of_Z 1) (float_of_Z 255) => fail
             | _ =>
                 let H := fresh in
                 pose proof (py_round_state w s) as H;
                 destruct (py_round w s) as [[?|?] ?];
                 cbn [snd] in H; subst; try discriminate
             end
         end.
  rewrite round_one. unfold ret. cbn [fst]. intros H. apply Ok_inj in H.
  apply pair_inj in H. destruct H as [_ H]. now symmetry.
Qed.
End BlendMore.

Lemma blend_is_pointwise_witness :
  fst (custom.blend Examples.white (custom.float_of_Z 1) Examples.solid_mask
         Examples.some_base tt)
  = Ok [(0, 127, 96, 255); (0, 127, 27, 255)]%Z /\
  (List.length Examples.solid_mask <= List.length Examples.some_base)%nat.
Proof.
  assert (H : fst (custom.blend Examples.white (custom.float_of_Z 1)
                     Examples.solid_mask Examples.some_base tt)
              = Ok [(0, 127, 96, 255); (0, 127, 27, 255)]%Z)
    by (vm_compute; reflexivity).
  split; [exact H|].
  exact (proj1 (proj2 (blend_is_pointwise _ _ _ _ _ tt H))).
Defined.

Lemma blend_pixel_opaque_witness :
  snd (xff, x00, x10, x80) <> x00 /\
  exists ca,
    fst (custom.blend_pixel Examples.white (custom.float_of_Z 1)
           (xff, x00, x10, x80) (x00, xff, x33, xff) tt)
    = Ok (0, 127, 27, ca)%Z /\ ca = 255%Z.
Proof.
  assert (Hne : snd (xff, x00, x10, x80) <> x00) by (cbn; discriminate).
  assert (H : fst (custom.blend_pixel Examples.white (custom.float_of_Z 1)
                     (xff, x00, x10, x80) (x00, xff, x33, xff) tt)
              = Ok (0, 127, 27, 255)%Z) by (vm_compute; reflexivity).
  split; [exact Hne|]. exists 255%Z. split; [exact H|].
  exact (blend_pixel_opaque _ _ _ _ _ _ _ _ tt Hne H).
Defined.

(** * More about the watermark handler *)

Section WatermarkMore.
Import component.
Local Open Scope string_scope.

Lemma isfile_eq (env : watermark.Env) (file : string) (ctx : cairo.Context) :
  watermark.isfile env file ctx = (Ok (PipelineFacts.on_disk env file ctx), ctx).
Proof. reflexivity. Qed.

Lemma lookup_app_last {A} (k : string) (v : A) (d : list (string * A)) :
  watermark.lookup k (d ++ [(k, v)]) <> None.
Proof.
  induction d as [|[k' v'] d IH]; cbn [app watermark.lookup].
  - rewrite String.eqb_refl. discriminate.
  - destruct (String.eqb k k'); [discriminate | exact IH].
Qed.

Lemma blend_state {St} (tint : custom.Vector4) (intensity : custom.float)
      (r0 r1 : list custom.pixel) (s : St) :
  snd (custom.blend tint intensity r0 r1 s) = s.
Proof. unfold custom.blend. apply blend_loop_state. Qed.

Lemma set_watermark_leaves_file (env : watermark.Env) (cus : Custom)
      (data : Payload) (ctx ctx' : cairo.Context) :
  card_set_craftable (payload_card data) = true ->
  watermark.set_watermark env cus (Some data) ctx = (Ok tt, ctx') ->
  PipelineFacts.on_disk env (watermark.image_path data) ctx' = true.
Proof.
  intros Hcraft.
  unfold watermark.set_watermark. rewrite Hcraft. cbn [negb].
  unfold bind at 1. rewrite isfile_eq.
  destruct (PipelineFacts.on_disk env (watermark.image_path data) ctx) eqn:Hc.
  - unfold cairo.draw. intros H. apply pair_inj in H. destruct H as [_ <-].
    exact Hc.
  - unfold bind at 1. rewrite isfile_eq.
    set (ctx1 := snd ((if PipelineFacts.on_disk env (watermark.set_icon_path cus data) ctx
                       then ret tt
                       else cairo.print ("ERROR: set icon missing for "
                                         ++ card_set_name (payload_card data)))
                        ctx)).
    unfold bind at 1.
    replace ((if PipelineFacts.on_disk env (watermark.set_icon_path cus data) ctx
              then ret tt
              else cairo.print ("ERROR: set icon missing for "
                                ++ card_set_name (payload_card data))) ctx)
      with (@Ok unit tt, ctx1)
      by (unfold ctx1;
          destruct (PipelineFacts.on_disk env (watermark.set_icon_path cus data) ctx);
          reflexivity).
    clearbody ctx1.
    unfold bind at 1. unfold watermark.Image_open at 1.
    destruct (watermark.open_image env (watermark.set_icon_path cus data))
      as [set_org|]; [|discriminate]. unfold ret at 1.
    unfold bind at 1. unfold watermark.subscript at 1.
    destruct (watermark.lookup "default" (assets (custom_image cus)))
      as [default|]; [|discriminate]. unfold ret at 1.
    unfold bind at 1. unfold watermark.Image_open at 1.
    destruct (watermark.open_image env
                (watermark.join (payload_dir data) default))
      as [descp_img|]; [|discriminate]. unfold ret at 1.
    unfold bind at 1. unfold watermark.subscript at 1.
    destruct (watermark.lookup (payload_cardtype data) (tint cus))
      as [tint_v|]; [|discriminate]. unfold ret at 1.
    destruct (negb _); [discriminate|].
    unfold bind at 1.
    pose proof (blend_state tint_v (blendIntensity cus)
                  (watermark.r0_data env cus data set_org)
                  (watermark.getdata descp_img) ctx1) as Hst.
    destruct (custom.blend tint_v (blendIntensity cus)
                (watermark.r0_data env cus data set_org)
                (watermark.getdata descp_img) ctx1) as [[out|ex] ctx2];
      cbn [snd] in Hst; subst ctx2; [|discriminate].
    unfold bind, cairo.save_file, cairo.draw.
    intros H. apply pair_inj in H. destruct H as [_ <-].
    unfold PipelineFacts.on_disk. cbn [cairo.saved].
    destruct (watermark.lookup (watermark.image_path data)
                (cairo.saved ctx1 ++ [(watermark.image_path data, out)]))
      eqn:Hl; [reflexivity|].
    now apply lookup_app_last in Hl.
Qed.

(** X23. The generated watermark is reused: once [set_watermark] has
    returned for a card of a craftable set, a second call with the same
    component and data finds the image in the cache and only draws that
    file; it opens no image, blends nothing and saves nothing. *)
Theorem set_watermark_reuses_cache (env : watermark.Env) (cus : Custom)
        (data : Payload) (ctx : cairo.Context) :
  card_set_craftable (payload_card data) = true ->
  fst (watermark.set_watermark env cus (Some data) ctx) = Ok tt ->
  watermark.set_watermark env cus (Some data)
    (snd (watermark.set_watermark env cus (Some data) ctx))
  = cairo.draw (cairo.ImageFile (watermark.image_path data)
                  (x (image_region (custom_image cus)))
                  (y (image_region (custom_image cus))))
      (snd (watermark.set_watermark env cus (Some data) ctx)).
Proof.
  intros Hcraft Hok.
  destruct (watermark.set_watermark env cus (Some data) ctx)
    as [res ctx1] eqn:Hrun.
  cbn [fst snd] in Hok |- *. subst res.
  pose proof (set_watermark_leaves_file env cus data ctx ctx1 Hcraft Hrun)
    as Hfile.
  unfold watermark.set_watermark. rewrite Hcraft. cbn [negb].
  unfold bind at 1. rewrite isfile_eq, Hfile. reflexivity.
Qed.

(** X24. A missing set icon is reported and still aborts the handler: with
    no cached image and no icon to open, [set_watermark] raises
    FileNotFoundError having painted and saved nothing; when the icon is not
    on disk either, the line "ERROR: set icon missing for <set>" was printed
    before. *)
Theorem missing_icon_aborts (env : watermark.Env) (cus : Custom)
        (data : Payload) (ctx : cairo.Context) :
  card_set_craftable (payload_card data) = true ->
  fst (watermark.isfile env (watermark.image_path data) ctx) = Ok false ->
  watermark.open_image env (watermark.set_icon_path cus data) = None ->
  fst (watermark.set_watermark env cus (Some data) ctx)
  = Raise FileNotFoundError /\
  cairo.painted (snd (watermark.set_watermark env cus (Some data) ctx))
  = cairo.painted ctx /\
  cairo.saved (snd (watermark.set_watermark env cus (Some data) ctx))
  = cairo.saved ctx /\
  (fst (watermark.isfile env (watermark.set_icon_path cus data) ctx)
   = Ok false ->
   cairo.stdout (snd (watermark.set_watermark env cus (Some data) ctx))
   = (cairo.stdout ctx
      ++ [("ERROR: set icon missing for "
           ++ card_set_name (payload_card data))%string])%list).
Proof.
  intros Hcraft Hcache Hopen.
  rewrite isfile_eq in Hcache |- *. cbn [fst] in Hcache |- *.
  apply Ok_inj in Hcache.
  destruct (watermark.set_watermark env cus (Some data) ctx)
    as [res ctx'] eqn:Hrun. cbn [fst snd].
  revert Hrun.
  unfold watermark.set_watermark. rewrite Hcraft. cbn [negb].
  unfold bind at 1. rewrite isfile_eq, Hcache.
  unfold bind at 1. rewrite isfile_eq.
  unfold bind, watermark.Image_open. rewrite Hopen.
  destruct (PipelineFacts.on_disk env (watermark.set_icon_path cus data) ctx);
    cbn; intros H; apply pair_inj in H; destruct H as [<- <-];
    cbn [cairo.painted cairo.saved cairo.stdout];
    repeat split; intros Hprint; try reflexivity;
    apply Ok_inj in Hprint; discriminate Hprint.
Qed.
End WatermarkMore.

Lemma set_watermark_reuses_cache_witness :
  component.card_set_craftable (component.payload_card Examples.minion_payload) = true /\
  fst (watermark.set_watermark Examples.matching_files
         Examples.watermark_custom (Some Examples.minion_payload) cairo.blank)
  = Ok tt /\
  cairo.saved
    (snd (watermark.set_watermark Examples.matching_files
            Examples.watermark_custom (Some Examples.minion_payload)
            (snd (watermark.set_watermark Examples.matching_files
                    Examples.watermark_custom (Some Examples.minion_payload)
                    cairo.blank))))
  = cairo.saved
      (snd (watermark.set_watermark Examples.matching_files
              Examples.watermark_custom (Some Examples.minion_payload)
              cairo.blank)).
Proof.
  assert (Hcraft : component.card_set_craftable (component.payload_card Examples.minion_payload)
                   = true) by reflexivity.
  assert (Hok : fst (watermark.set_watermark Examples.matching_files
                       Examples.watermark_custom
                       (Some Examples.minion_payload) cairo.blank) = Ok tt)
    by (vm_compute; reflexivity).
  split; [exact Hcraft|]. split; [exact Hok|].
  rewrite (set_watermark_reuses_cache _ _ _ _ Hcraft Hok). reflexivity.
Defined.

Lemma missing_icon_aborts_witness :
  component.card_set_craftable (component.payload_card Examples.minion_payload) = true /\
  fst (watermark.isfile Examples.no_files
         (watermark.image_path Examples.minion_payload) cairo.blank)
  = Ok false /\
  watermark.open_image Examples.no_files
    (watermark.set_icon_path Examples.watermark_custom
       Examples.minion_payload) = None /\
  fst (watermark.set_watermark Examples.no_files Examples.watermark_custom
         (Some Examples.minion_payload) cairo.blank)
  = Raise FileNotFoundError.
Proof.
  assert (Hcraft : component.card_set_craftable (component.payload_card Examples.minion_payload)
                   = true) by reflexivity.
  assert (Hcache : fst (watermark.isfile Examples.no_files
                          (watermark.image_path Examples.minion_payload)
                          cairo.blank) = Ok false) by reflexivity.
  assert (Hopen : watermark.open_image Examples.no_files
                    (watermark.set_icon_path Examples.watermark_custom
                       Examples.minion_payload) = None) by reflexivity.
  split; [exact Hcraft|]. split; [exact Hcache|]. split; [exact Hopen|].
  exact (proj1 (missing_icon_aborts _ _ _ _ Hcraft Hcache Hopen)).
Defined.


(** * Straight curves *)

Section Straight.
Import CubicBezier CurveFacts.
Local Open Scope R_scope.



End Straight.

(** * The debug marks *)

Section Marks.
Import CubicBezier CurveFacts CurvedText.
Local Open Scope R_scope.

Lemma uniform_t_small_calls (num : Z) :
  forall (indices : list Z) (st : drawing),
    (indices <> [] -> IZR num <> 0) ->
    curved.uniform_t_small num indices st
    = (Ok tt,
       mk_drawing (curve st)
         (calls st
          ++ dots 2 (curve st) (map (fun i => IZR i / IZR num) indices))).
Proof.
  induction indices as [|i rest IH]; intros [crv cs] Hnum.
  - cbn. now rewrite app_nil_r.
  - cbn [curved.uniform_t_small]. unfold bind at 1. unfold truediv.
    destruct (Req_dec_T (IZR num) 0) as [Hz|_];
      [exfalso; apply Hnum; [discriminate | exact Hz]|].
    unfold ret at 1. unfold bind, curved.evaluate, context.
    cbn [curve calls]. rewrite IH by (intros _; apply Hnum; discriminate).
    cbn [curve calls map dots flat_map]. rewrite <- !app_assoc. reflexivity.
Qed.

Lemma uniform_t_large_calls :
  forall (ts : list R) (st : drawing),
    curved.uniform_t_large ts st
    = (Ok tt, mk_drawing (curve st) (calls st ++ dots 4 (curve st) ts)).
Proof.
  induction ts as [|u rest IH]; intros [crv cs].
  - cbn. now rewrite app_nil_r.
  - cbn [curved.uniform_t_large]. unfold bind, curved.evaluate, context.
    cbn [curve calls]. rewrite IH.
    cbn [curve calls dots flat_map]. rewrite <- !app_assoc. reflexivity.
Qed.


Lemma range1_length (num : Z) :
  List.length (curved.range1 num) = Z.to_nat (num - 1).
Proof. unfold curved.range1. now rewrite length_map, length_seq. Qed.

Lemma dots_length (radius : R) (self : t) (ts : list R) :
  List.length (dots radius self ts) = (2 * List.length ts)%nat.
Proof.
  induction ts as [|u rest IH]; [reflexivity|].
  unfold dots in *. cbn [flat_map List.length app]. rewrite IH. lia.
Qed.

Lemma draw_uniform_t_run (num : Z) (st : drawing) :
  curved.draw_uniform_t num st
  = (Ok tt,
     mk_drawing (curve st)
       (calls st ++ [save; set_source_rgb (0.2, 0.8, 0.4)]
        ++ (dots 2 (curve st)
              (map (fun i => IZR i / IZR num) (curved.range1 num))
            ++ dots 4 (curve st) [0; 0.5; 1])
        ++ [restore])).
Proof.
  destruct st as [crv cs]. unfold curved.draw_uniform_t.
  unfold bind at 1. unfold context at 1. cbn [curve calls].
  unfold bind at 1. unfold context at 1. cbn [curve calls].
  unfold bind at 1. rewrite uniform_t_small_calls.
  - unfold bind at 1. rewrite uniform_t_large_calls.
    unfold context. cbn [curve calls]. rewrite <- !app_assoc. reflexivity.
  - intros Hne Hz. apply eq_IZR_R0 in Hz. subst num. now apply Hne.
Qed.

(** X26. [draw_uniform_t] returns for every [num], zero and negative
    numbers included (no division by [num] is reached unless [num] is at
    least 2), and it leaves the curve and its cache as they were.  Its first
    call is [save], its last one [restore], and between them it draws
    max(num - 1, 0) + 3 dots, an arc and a fill each. *)
Theorem draw_uniform_t_returns (num : Z) (st : drawing) :
  fst (curved.draw_uniform_t num st) = Ok tt /\
  curve (snd (curved.draw_uniform_t num st)) = curve st /\
  exists body,
    calls (snd (curved.draw_uniform_t num st))
    = calls st ++ [save; set_source_rgb (0.2, 0.8, 0.4)] ++ body ++ [restore] /\
    List.length body = (2 * (Z.to_nat (num - 1) + 3))%nat /\
    ~ In save body /\ ~ In restore body.
Proof.
  rewrite draw_uniform_t_run. cbn [fst snd curve calls].
  split; [reflexivity|]. split; [reflexivity|].
  eexists. split; [reflexivity|].
  split.
  - rewrite length_app, !dots_length, length_map, range1_length.
    cbn [List.length]. lia.
  - assert (Hdots : forall radius ts c,
               In c (dots radius (curve st) ts) -> c <> save /\ c <> restore).
    { intros radius ts c. unfold dots. rewrite in_flat_map.
      intros (u & _ & [<- | [<- | []]]); split; discriminate. }
    split; intros Hin; apply in_app_or in Hin;
      destruct Hin as [Hin | Hin]; apply Hdots in Hin;
      destruct Hin as [Hs Hr]; congruence.
Qed.

Lemma straight_same_points (q v : Point.t) (self : t) (u : R) :
  is_straight q v self -> evaluate self u = evaluate (straight_curve q v) u.
Proof. intros [-> | ->]; reflexivity. Qed.






End Marks.

(** * What [draw] does to the curve *)

Section DrawMoves.
Import CubicBezier CurveFacts CurvedText.
Local Open Scope R_scope.





End DrawMoves.

(** * The shape of the curve and of its parametrisation *)

Section CurveShape.
Import CubicBezier CurveFacts.
Local Open Scope R_scope.


Lemma locate_same_target (tbl : list R) (u u' : R) :
  u * nth (List.length tbl - 1) tbl 0 = u' * nth (List.length tbl - 1) tbl 0 ->
  locate tbl u = locate tbl u'.
Proof. intros H. unfold locate. cbv zeta. rewrite H. reflexivity. Qed.

Lemma interpolation_ordered (self : t) (i j : nat) (fr fr' : R) :
  0 <= fr <= 1 -> 0 <= fr' <= 1 ->
  INR j + fr' <= INR i + fr ->
  chord_sum self 101 j
  + fr' * (chord_sum self 101 (j + 1) - chord_sum self 101 j)
  <= chord_sum self 101 i
     + fr * (chord_sum self 101 (i + 1) - chord_sum self 101 i).
Proof.
  intros Hfr Hfr' Hle.
  pose proof (chord_sum_mono self 101 i (i + 1) ltac:(lia)) as Hdi.
  pose proof (chord_sum_mono self 101 j (j + 1) ltac:(lia)) as Hdj.
  set (ti := chord_sum self 101 i) in *.
  set (ti1 := chord_sum self 101 (i + 1)) in *.
  set (tj := chord_sum self 101 j) in *.
  set (tj1 := chord_sum self 101 (j + 1)) in *.
  assert (Hup : tj + fr' * (tj1 - tj) <= tj1) by nra.
  assert (Hlow : ti <= ti + fr * (ti1 - ti)) by nra.
  destruct (Nat.lt_trichotomy j i) as [Hlt | [Heq | Hgt]].
  - pose proof (chord_sum_mono self 101 (j + 1) i ltac:(lia)) as Hmid.
    fold tj1 ti in Hmid. lra.
  - subst j. subst tj tj1. fold ti ti1. nra.
  - assert (Hij : INR i + 1 <= INR j).
    { rewrite <- S_INR. apply le_INR. lia. }
    assert (Hfr1 : fr = 1) by lra. assert (Hfr0 : fr' = 0) by lra.
    assert (Hj : INR j = INR (i + 1)) by (rewrite plus_INR; simpl; lra).
    apply INR_eq in Hj. subst j fr fr'. subst tj. fold ti1. lra.
Qed.

(** X30. [parametrize] is monotone: on one curve, for u <= u' in [0, 1],
    the parameter returned for u is not above the one returned for u'. *)
Theorem parametrize_monotone (self : t) (u u' v v' : R) :
  cached self ->
  0 <= u -> u <= u' -> u' <= 1 ->
  fst (parametrize u self) = Ok v ->
  fst (parametrize u' self) = Ok v' ->
  v <= v'.
Proof.
  intros Hc H0 Hle H1. rewrite !parametrize_locate by assumption.
  cbn [fst]. intros Hl Hl'.
  pose proof (chord_sum_nonneg self 101 101) as Harc. fold (arc self) in Harc.
  destruct (Req_dec_T (u * arc self) (u' * arc self)) as [Heq | Hne].
  - assert (Hsame : locate (table self) u = locate (table self) u').
    { apply locate_same_target. rewrite table_length.
      change (102 - 1)%nat with 101%nat.
      rewrite (table_nth self 101) by lia. exact Heq. }
    rewrite Hsame, Hl' in Hl. apply Ok_inj in Hl. lra.
  - assert (Hlt : u * arc self < u' * arc self) by nra.
    destruct (locate_bracket self u v ltac:(lra) Hl)
      as (i & fr & _ & Hfr & Hv & HF).
    destruct (locate_bracket self u' v' ltac:(lra) Hl')
      as (j & fr' & _ & Hfr' & Hv' & HF').
    destruct (Rle_dec v v') as [|Hgt]; [assumption|exfalso].
    assert (Hord : INR j + fr' <= INR i + fr).
    { rewrite Hv, Hv' in Hgt. unfold Rdiv in Hgt. lra. }
    pose proof (interpolation_ordered self i j fr fr' Hfr Hfr' Hord). lra.
Qed.

Lemma parametrize_monotone_witness :
  cached segment_curve /\ 0 <= 0 /\ 0 <= 1 /\ 1 <= 1 /\
  fst (parametrize 0 segment_curve) = Ok 0 /\
  fst (parametrize 1 segment_curve) = Ok 1 /\
  0 <= 1.
Proof.
  assert (Hc : cached segment_curve) by (left; split; reflexivity).
  assert (H0 : 0 <= 0) by lra. assert (Hle : 0 <= 1) by lra.
  assert (H1 : 1 <= 1) by lra.
  assert (Hp0 : fst (parametrize 0 segment_curve) = Ok 0).
  { rewrite parametrize_locate by assumption. cbn [fst].
    apply locate_zero_target. lra. }
  assert (Hp1 : fst (parametrize 1 segment_curve) = Ok 1).
  { rewrite parametrize_locate by assumption. cbn [fst].
    apply locate_one_rising;
      rewrite (segment_chords 100) || rewrite (segment_chords 99); lra. }
  split; [exact Hc|]. split; [exact H0|]. split; [exact Hle|].
  split; [exact H1|]. split; [exact Hp0|]. split; [exact Hp1|].
  exact (parametrize_monotone segment_curve 0 1 0 1 Hc H0 Hle H1 Hp0 Hp1).
Defined.
End CurveShape.

